(** * abc-tune-analyzer: the record parser, the catalog store and the filters

    A shallow embedding of [abc_parser_app.py].  Python [str] values are
    sequences of Unicode code points; the file is opened in text mode with
    [encoding='utf-8'], so the parser only ever sees decoded text. *)

From Stdlib Require Import List NArith ZArith String Ascii Bool Lia Sorted Permutation.
Import ListNotations.

(** ** Python strings *)

Module PyStr.

(** A character is a code point, a [str] a list of them. *)
Definition char := N.
Definition str := list char.

(** A literal of the source, written as a Rocq string (ASCII only). *)
Definition lit (s : string) : str := map N_of_ascii (list_ascii_of_string s).

Definition LF : char := 10%N.
Definition CR : char := 13%N.
Definition COLON : char := 58%N.

(** [str.isspace] on one code point: the table of [_PyUnicode_IsWhitespace]. *)
Definition is_space (c : char) : bool :=
  ((9 <=? c) && (c <=? 13)
   || (28 <=? c) && (c <=? 32)
   || (c =? 133) || (c =? 160) || (c =? 5760)
   || (8192 <=? c) && (c <=? 8202)
   || (c =? 8232) || (c =? 8233) || (c =? 8239) || (c =? 8287)
   || (c =? 12288))%N.

(** [s.lstrip()], [s.rstrip()] and [s.strip()] without argument. *)
Fixpoint lstrip (s : str) : str :=
  match s with
  | [] => []
  | c :: s' => if is_space c then lstrip s' else s
  end.

Definition rstrip (s : str) : str := rev (lstrip (rev s)).

Definition strip (s : str) : str := rstrip (lstrip s).

(** [s.startswith(p)]. *)
Fixpoint startswith (s p : str) : bool :=
  match p, s with
  | [], _ => true
  | _ :: _, [] => false
  | a :: p', c :: s' => (c =? a)%N && startswith s' p'
  end.

(** [s.split(sep)] for a one-character separator: every occurrence of the
    separator cuts, and the result is never the empty list. *)
Fixpoint split (s : str) (sep : char) : list str :=
  match s with
  | [] => [[]]
  | c :: s' =>
      if (c =? sep)%N then [] :: split s' sep
      else match split s' sep with
           | [] => [[c]]
           | l :: ls => (c :: l) :: ls
           end
  end.

(** Universal-newline translation of a text-mode file opened with the
    default [newline=None]: CR LF and a lone CR both read as LF. *)
Fixpoint translate_newlines (s : str) : str :=
  match s with
  | [] => []
  | c :: s' =>
      if (c =? CR)%N then
        LF :: match s' with
              | d :: s'' => if (d =? LF)%N then translate_newlines s''
                            else translate_newlines s'
              | [] => []
              end
      else c :: translate_newlines s'
  end.

(** Cutting a text after each LF, the terminator kept with its line. *)
Fixpoint keepends (s : str) : list str :=
  match s with
  | [] => []
  | c :: s' =>
      if (c =? LF)%N then [c] :: keepends s'
      else match keepends s' with
           | [] => [[c]]
           | l :: ls => (c :: l) :: ls
           end
  end.

(** [f.readlines()] on the decoded text of the file. *)
Definition readlines (text : str) : list str :=
  keepends (translate_newlines text).

End PyStr.
Import PyStr.

(** ** Exceptions and printed lines *)

(** An exception as far as the program can tell them apart: its class and
    the text of [str(e)].  [ReadError] stands for whatever [open] or
    [readlines] raises (an OSError, a UnicodeDecodeError); [DatabaseError]
    is the one pandas raises when its query fails. *)
Inductive exn : Type :=
| KeyError (key : str)
| IndexError
| OverflowError
| OperationalError (msg : str)
| DatabaseError (msg : str)
| ReadError (msg : str).

Definition exn_str (e : exn) : str :=
  match e with
  | KeyError key => lit "'" ++ key ++ lit "'"
  | IndexError => lit "list index out of range"
  | OverflowError => lit "Python int too large to convert to SQLite INTEGER"
  | OperationalError msg => msg
  | DatabaseError msg => msg
  | ReadError msg => msg
  end.

Inductive result (A : Type) : Type :=
| Ok (a : A)
| Raise (e : exn).
Arguments Ok {A} a.
Arguments Raise {A} e.

Definition bind {A B : Type} (m : result A) (k : A -> result B) : result B :=
  match m with
  | Ok a => k a
  | Raise e => Raise e
  end.

Notation "x <- m ;; k" := (bind m (fun x => k))
  (at level 61, m at next level, right associativity).

(** One [print] call of the ingestion path, with the values its f-string
    interpolates. *)
Inductive message : Type :=
| ErrorReading (filepath : str) (e : str)
| Skipping (file_path : str) (parent_name : str)
| Processed (book_id : Z) (name : str) (count : nat).

(** ** The tune dictionary built by the parser

    [current_tune] only ever holds the keys ['book_id'], ['content'], ['X'],
    ['T'], ['R'] and ['K']; a key that is absent is [None], and [{}] has
    none. *)

Module TuneDict.

Record t : Type := mk {
  book_id : option Z;
  content : option str;
  X : option str;
  T : option str;
  R : option str;
  K : option str
}.

Definition empty : t := mk None None None None None None.

(** Truth value of a dictionary: it has at least one key. *)
Definition nonempty (d : t) : bool :=
  match book_id d, content d, X d, T d, R d, K d with
  | None, None, None, None, None, None => false
  | _, _, _, _, _, _ => true
  end.

Definition set_content (d : t) (v : str) : t :=
  mk (book_id d) (Some v) (X d) (T d) (R d) (K d).
Definition set_X (d : t) (v : str) : t :=
  mk (book_id d) (content d) (Some v) (T d) (R d) (K d).
Definition set_T (d : t) (v : str) : t :=
  mk (book_id d) (content d) (X d) (Some v) (R d) (K d).
Definition set_R (d : t) (v : str) : t :=
  mk (book_id d) (content d) (X d) (T d) (Some v) (K d).
Definition set_K (d : t) (v : str) : t :=
  mk (book_id d) (content d) (X d) (T d) (R d) (Some v).

(** [d[key]] raises [KeyError] on an absent key. *)
Definition getitem_content (d : t) : result str :=
  match content d with
  | Some c => Ok c
  | None => Raise (KeyError (lit "content"))
  end.

End TuneDict.

(** ** parse_abc_file *)

Definition X_marker : str := lit "X:".
Definition T_marker : str := lit "T:".
Definition R_marker : str := lit "R:".
Definition K_marker : str := lit "K:".

(** [line.split(':')[1].strip()]. *)
Definition header_value (line : str) : result str :=
  match nth_error (split line COLON) 1 with
  | Some v => Ok (strip v)
  | None => Raise IndexError
  end.

(** The local variables of the loop. *)
Record state : Type := mk_state {
  tunes : list TuneDict.t;
  current_tune : TuneDict.t;
  in_tune : bool
}.

Definition initial : state := mk_state [] TuneDict.empty false.

(** What one iteration leaves behind: the updated locals, or an exception
    that leaves the [try] block, with the list [tunes] as it stands. *)
Inductive outcome : Type :=
| Next (st : state)
| Raised (e : exn) (tunes_so_far : list TuneDict.t).

Definition lift (tunes_so_far : list TuneDict.t) (m : result state) : outcome :=
  match m with
  | Ok st => Next st
  | Raise e => Raised e tunes_so_far
  end.

(** The body of [for line in lines]. *)
Definition loop_body (book_id : Z) (st : state) (raw : str) : outcome :=
  let line := strip raw in
  match line with
  | [] => Next st
  | _ :: _ =>
    if startswith line X_marker then
      let tunes1 :=
        if TuneDict.nonempty (current_tune st)
        then tunes st ++ [current_tune st] else tunes st in
      let fresh :=
        TuneDict.mk (Some book_id) (Some (line ++ [LF])) None None None None in
      lift tunes1 (
        v <- header_value line ;;
        Ok (mk_state tunes1 (TuneDict.set_X fresh v) true))
    else if in_tune st then
      lift (tunes st) (
        c <- TuneDict.getitem_content (current_tune st) ;;
        let cur := TuneDict.set_content (current_tune st) (c ++ line ++ [LF]) in
        if startswith line T_marker then
          match TuneDict.T cur with
          | None =>
              v <- header_value line ;;
              Ok (mk_state (tunes st) (TuneDict.set_T cur v) (in_tune st))
          | Some _ => Ok (mk_state (tunes st) cur (in_tune st))
          end
        else if startswith line R_marker then
          v <- header_value line ;;
          Ok (mk_state (tunes st) (TuneDict.set_R cur v) (in_tune st))
        else if startswith line K_marker then
          v <- header_value line ;;
          Ok (mk_state (tunes st) (TuneDict.set_K cur v) (in_tune st))
        else Ok (mk_state (tunes st) cur (in_tune st)))
    else Next st
  end.

(** The [for] loop: it stops at the first exception. *)
Fixpoint run_loop (book_id : Z) (st : state) (lines : list str) : outcome :=
  match lines with
  | [] => Next st
  | raw :: rest =>
      match loop_body book_id st raw with
      | Next st' => run_loop book_id st' rest
      | Raised e ts => Raised e ts
      end
  end.

(** The statements of the [try] block after [readlines], the [except]
    clause and the [return]: the tunes and what was printed. *)
Definition parse_lines (filepath : str) (lines : list str) (book_id : Z)
  : list TuneDict.t * list message :=
  match run_loop book_id initial lines with
  | Next st =>
      (if TuneDict.nonempty (current_tune st)
       then tunes st ++ [current_tune st] else tunes st, [])
  | Raised e ts => (ts, [ErrorReading filepath (exn_str e)])
  end.

(** What [open] and [readlines] give for a path: the decoded text, or the
    exception they raise. *)
Inductive source_text : Type :=
| Readable (text : str)
| Unreadable (e : exn).

Definition parse_abc_file (filepath : str) (file : source_text) (book_id : Z)
  : list TuneDict.t * list message :=
  match file with
  | Readable text => parse_lines filepath (readlines text) book_id
  | Unreadable e => ([], [ErrorReading filepath (exn_str e)])
  end.


(** ** TuneDatabase: the SQLite table [tunes] *)

Module TuneRow.

(** One row of [tunes]; a column holding SQL NULL is [None]. *)
Record t : Type := mk {
  id : Z;
  book_id : option Z;
  reference_number : option str;
  title : option str;
  rhythm : option str;
  key_sig : option str;
  content : option str
}.

End TuneRow.

(** The table with its rows in rowid order, and the counter that
    AUTOINCREMENT keeps in [sqlite_sequence]: the largest id ever given. *)
Record tunes_table : Type := mk_table {
  rows : list TuneRow.t;
  sqlite_sequence : Z
}.

(** The database file behind a connection: [None] while it has no table
    [tunes], as a file that [sqlite3.connect] has just created. *)
Definition database := option tunes_table.

Definition new_file : database := None.

(** [CREATE TABLE IF NOT EXISTS]. *)
Definition create_table (db : database) : database :=
  match db with
  | None => Some (mk_table [] 0)
  | Some tbl => Some tbl
  end.

(** [TuneDatabase(db_name)]: connect, then [create_table]. *)
Definition TuneDatabase (db : database) : database := create_table db.

(** [tune_data.get(key, default)]. *)
Definition get (v : option str) (default : str) : str :=
  match v with
  | Some s => s
  | None => default
  end.

Definition Unknown : str := lit "Unknown".

(** SQLite stores an INTEGER in 64 bits, two's complement; the [sqlite3]
    module refuses to bind a Python [int] outside that range. *)
Definition fits_int64 (z : Z) : bool :=
  ((- 2 ^ 63 <=? z) && (z <=? 2 ^ 63 - 1))%Z.

Definition bind_int (v : option Z) : result (option Z) :=
  match v with
  | None => Ok None
  | Some z => if fits_int64 z then Ok (Some z) else Raise OverflowError
  end.

Definition max_rowid (l : list TuneRow.t) : Z :=
  fold_right (fun r m => Z.max (TuneRow.id r) m) 0%Z l.

(** [insert_tune]: the INSERT and the commit.  The new id is one more than
    the largest id the table has ever held.  Two failures of SQLite lie
    outside this model: a table whose ids have reached 2^63 - 1 is full,
    and a text with a lone surrogate cannot be encoded; the statements
    about stored tunes are made for fewer than 2^63 rows and for tunes
    parsed from decoded text. *)
Definition insert_tune (db : database) (tune_data : TuneDict.t) : result database :=
  match db with
  | None => Raise (OperationalError (lit "no such table: tunes"))
  | Some tbl =>
      b <- bind_int (TuneDict.book_id tune_data) ;;
      let new_id := (Z.max (sqlite_sequence tbl) (max_rowid (rows tbl)) + 1)%Z in
      let row :=
        TuneRow.mk new_id b
          (TuneDict.X tune_data)
          (Some (get (TuneDict.T tune_data) Unknown))
          (Some (get (TuneDict.R tune_data) Unknown))
          (Some (get (TuneDict.K tune_data) Unknown))
          (Some (get (TuneDict.content tune_data) [])) in
      Ok (Some (mk_table (rows tbl ++ [row]) new_id))
  end.

(** ** process_directory *)

(** One path yielded by [rglob('*.abc')], with what the file system and
    [int(file_path.parent.name)] answer for it ([None]: ValueError). *)
Record abc_file : Type := mk_file {
  file_path : str;
  name : str;
  parent_name : str;
  book_number : option Z;
  file : source_text
}.

(** [for tune in tunes_found: db.insert_tune(tune)]; every insert is
    committed, so the rows written before an exception stay. *)
Fixpoint insert_tunes (tunes_found : list TuneDict.t) (db : database)
  : database * result unit :=
  match tunes_found with
  | [] => (db, Ok tt)
  | tune :: rest =>
      match insert_tune db tune with
      | Ok db' => insert_tunes rest db'
      | Raise e => (db, Raise e)
      end
  end.

(** The loop over the files, from a running total, a database and the lines
    printed so far. *)
Fixpoint process_loop (files : list abc_file) (total_tunes : nat)
    (db : database) (printed : list message)
  : database * list message * result nat :=
  match files with
  | [] => (db, printed, Ok total_tunes)
  | f :: rest =>
      match book_number f with
      | None =>
          process_loop rest total_tunes db
            (printed ++ [Skipping (file_path f) (parent_name f)])
      | Some book_id =>
          let (tunes_found, said) := parse_abc_file (file_path f) (file f) book_id in
          match insert_tunes tunes_found db with
          | (db', Ok _) =>
              process_loop rest (total_tunes + List.length tunes_found) db'
                (printed ++ said ++
                 [Processed book_id (name f) (List.length tunes_found)])
          | (db', Raise e) => (db', printed ++ said, Raise e)
          end
      end
  end.

Definition process_directory (files : list abc_file) (db : database)
  : database * list message * result nat :=
  process_loop files 0 db [].

(** ** TuneAnalyzer *)

(** A DataFrame read from [tunes]: its rows, in order. *)
Definition DataFrame := list TuneRow.t.

(** [load_data]: [SELECT * FROM tunes], which walks the table in rowid
    order; without the table pandas raises its DatabaseError around the
    message of SQLite.  The rows come back as stored as long as no
    [book_id] is NULL, which is so for every row written from a parsed
    tune: with a NULL among them pandas reads the column as floats, and
    that is not modelled. *)
Definition load_data (db : database) : result DataFrame :=
  match db with
  | None =>
      Raise (DatabaseError (lit
        "Execution failed on sql 'SELECT * FROM tunes': no such table: tunes"))
  | Some tbl => Ok (rows tbl)
  end.

Definition get_tunes_by_book (df : DataFrame) (book_id : Z) : DataFrame :=
  filter (fun r => match TuneRow.book_id r with
                   | Some b => (b =? book_id)%Z
                   | None => false
                   end) df.

(** [re.search] under [re.IGNORECASE], for the patterns and subjects whose
    meaning needs none of the rest of the regular-expression language: a
    pattern of ASCII characters none of which is special except the dot, a
    subject of ASCII characters.  Outside of that the functions answer
    [None] and say nothing. *)
Module Re.

Inductive atom : Type :=
| Lit (c : char)
| Any.

(** The special characters of a pattern: [. ^ $ * + ? { } [ ] \ | ( )]. *)
Definition special (c : char) : bool :=
  existsb (N.eqb c) (lit ".^$*+?{}[]\|()").

Definition ascii (c : char) : bool := (c <? 128)%N.

Definition lower (c : char) : char :=
  if ((65 <=? c) && (c <=? 90))%N then (c + 32)%N else c.

Fixpoint compile (pat : str) : option (list atom) :=
  match pat with
  | [] => Some []
  | c :: pat' =>
      if negb (ascii c) then None
      else if (c =? 46)%N then option_map (cons Any) (compile pat')
      else if special c then None
      else option_map (cons (Lit c)) (compile pat')
  end.

(** A literal matches up to the case of letters, a dot anything but a
    newline. *)
Definition atom_matches (a : atom) (x : char) : bool :=
  match a with
  | Lit c => (lower c =? lower x)%N
  | Any => negb (x =? LF)%N
  end.

Fixpoint match_here (p : list atom) (s : str) : bool :=
  match p, s with
  | [], _ => true
  | _ :: _, [] => false
  | a :: p', x :: s' => atom_matches a x && match_here p' s'
  end.

Fixpoint search (p : list atom) (s : str) : bool :=
  match_here p s ||
  match s with
  | [] => false
  | _ :: s' => search p s'
  end.

End Re.

(** [Series.str.contains(pat, case=False, na=False)] on one cell.  [regex]
    is left at its default, [True]: the pattern is compiled first, then
    searched for in each cell that is not null. *)
Definition str_contains (pat : str) (cell : option str) : option bool :=
  match Re.compile pat with
  | None => None
  | Some p =>
      match cell with
      | None => Some false
      | Some s => if forallb Re.ascii s then Some (Re.search p s) else None
      end
  end.

(** [df[mask]] for a mask computed cell by cell. *)
Fixpoint select (mask : TuneRow.t -> option bool) (df : DataFrame)
  : option DataFrame :=
  match df with
  | [] => Some []
  | r :: df' =>
      match mask r, select mask df' with
      | Some true, Some out => Some (r :: out)
      | Some false, Some out => Some out
      | _, _ => None
      end
  end.

Definition get_tunes_by_rhythm (df : DataFrame) (rhythm : str) : option DataFrame :=
  match Re.compile rhythm with
  | None => None
  | Some _ => select (fun r => str_contains rhythm (TuneRow.rhythm r)) df
  end.

Definition search_tunes (df : DataFrame) (search_term : str) : option DataFrame :=
  match Re.compile search_term with
  | None => None
  | Some _ => select (fun r => str_contains search_term (TuneRow.title r)) df
  end.

(** ** Vocabulary of the statements *)

(** A line that the loop skips: nothing is left of it once stripped. *)
Definition blank (raw : str) : bool :=
  match strip raw with
  | [] => true
  | _ :: _ => false
  end.

(** A line that opens a record. *)
Definition opens (raw : str) : bool := startswith (strip raw) X_marker.

(** The lines of a record as [content] keeps them: stripped, the blank ones
    left out. *)
Definition kept (raw_lines : list str) : list str :=
  map strip (filter (fun raw => negb (blank raw)) raw_lines).

(** Lines put back into a text, a newline after each. *)
Definition unlines (ls : list str) : str :=
  List.concat (map (fun l => l ++ [LF]) ls).

(** The part of a line between its first colon and its second, trimmed. *)
Definition between_colons (line : str) : str :=
  strip (nth 1 (split line COLON) []).

(** The part of a line after its first colon, trimmed. *)
Fixpoint after_colon (line : str) : str :=
  match line with
  | [] => []
  | c :: rest => if (c =? COLON)%N then strip rest else after_colon rest
  end.

Definition first_with (marker : str) (ls : list str) : option str :=
  find (fun l => startswith l marker) ls.

Definition last_with (marker : str) (ls : list str) : option str :=
  find (fun l => startswith l marker) (rev ls).

(** The lines that follow an opening line, up to the next opening line or
    the end of the input. *)
Fixpoint body_of (rest : list str) : list str :=
  match rest with
  | [] => []
  | raw :: rest' => if opens raw then [] else raw :: body_of rest'
  end.

(** What is left of the input from the next opening line on. *)
Fixpoint after_body (rest : list str) : list str :=
  match rest with
  | [] => []
  | raw :: rest' => if opens raw then rest else after_body rest'
  end.

(** The input cut into records: each opening line with its body, in order.
    Lines before the first opening line belong to none. *)
Fixpoint segments (lines : list str) : list (str * list str) :=
  match lines with
  | [] => []
  | raw :: rest =>
      if opens raw then (raw, body_of rest) :: segments rest else segments rest
  end.

(** A text written line by line, a newline after each line. *)
Definition text (ls : list string) : str := unlines (map lit ls).

(** The two tunes of the concrete scenario, and the same text indented by
    two spaces. *)
Definition section8_text : str := text
  [ "X:101"; "T:The Test Reel"; "R:Reel"; "K:D"; "ABCD EFGH|";
    "X:102"; "T:The Quick Jig"; "R:Jig"; "K:G"; "GBdB GBdB|" ]%string.

Definition section8_indented : str := text
  [ "  X:101"; "  T:The Test Reel"; "  R:Reel"; "  K:D"; "  ABCD EFGH|";
    "  X:102"; "  T:The Quick Jig"; "  R:Jig"; "  K:G"; "  GBdB GBdB|" ]%string.

Definition tune_101 : TuneDict.t :=
  TuneDict.mk (Some 0%Z)
    (Some (text ["X:101"; "T:The Test Reel"; "R:Reel"; "K:D"; "ABCD EFGH|"]%string))
    (Some (lit "101")) (Some (lit "The Test Reel"))
    (Some (lit "Reel")) (Some (lit "D")).

Definition tune_102 : TuneDict.t :=
  TuneDict.mk (Some 0%Z)
    (Some (text ["X:102"; "T:The Quick Jig"; "R:Jig"; "K:G"; "GBdB GBdB|"]%string))
    (Some (lit "102")) (Some (lit "The Quick Jig"))
    (Some (lit "Jig")) (Some (lit "G")).

(** A line without its terminator. *)
Definition chomp (raw : str) : str :=
  match rev raw with
  | c :: r => if (c =? LF)%N then rev r else raw
  | [] => raw
  end.

(** The reconstruction that keeps each non-blank line as it stands in the
    input, a newline after it. *)
Definition verbatim (raw_lines : list str) : str :=
  unlines (map chomp (filter (fun raw => negb (blank raw)) raw_lines)).

(** The substring test of the specification: [sub] occurs in [s], letters
    compared without their case. *)
Fixpoint icontains (s sub : str) : bool :=
  startswith (map Re.lower s) (map Re.lower sub) ||
  match s with
  | [] => false
  | _ :: s' => icontains s' sub
  end.

Definition rhythm_icontains (sub : str) (r : TuneRow.t) : bool :=
  match TuneRow.rhythm r with
  | Some s => icontains s sub
  | None => false
  end.

Definition title_icontains (sub : str) (r : TuneRow.t) : bool :=
  match TuneRow.title r with
  | Some s => icontains s sub
  | None => false
  end.

(** Two rows to try the filters on. *)
Definition jig_and_reel : DataFrame :=
  [ TuneRow.mk 1 (Some 0%Z) (Some (lit "101")) (Some (lit "The Test Reel"))
      (Some (lit "Reel")) (Some (lit "D")) (Some (lit "X:101"));
    TuneRow.mk 2 (Some 0%Z) (Some (lit "102")) (Some (lit "The Quick Jig"))
      (Some (lit "Jig")) (Some (lit "G")) (Some (lit "X:102")) ].

(** Two files of a run: one of book 0 holding the two tunes, one of
    book 1 whose bytes are not UTF-8. *)
Definition sample_file : abc_file :=
  mk_file (lit "abc_books/0/sample0.abc") (lit "sample0.abc") (lit "0")
    (Some 0%Z) (Readable section8_text).

Definition broken_file : abc_file :=
  mk_file (lit "abc_books/1/broken.abc") (lit "broken.abc") (lit "1")
    (Some 1%Z)
    (Unreadable (ReadError (lit
       "'utf-8' codec can't decode byte 0xff in position 0: invalid start byte"))).

(** A code point that decoded text can hold: any but a surrogate, up to
    U+10FFFF. *)
Definition scalar (c : char) : bool :=
  ((c <? 55296) || (57344 <=? c) && (c <=? 1114111))%N.

Definition valid_text (s : str) : bool := forallb scalar s.

(** A parsed record: a dictionary that [parse_abc_file] returns for some
    readable source. *)
Definition parsed_record (t : TuneDict.t) : Prop :=
  exists filepath src book_id,
    valid_text src = true /\
    In t (fst (parse_abc_file filepath (Readable src) book_id)).

(** The sentinel of the specification for a field that was never
    declared. *)
Definition or_unknown (v : option str) : option str :=
  match v with
  | Some s => Some s
  | None => Some (lit "Unknown")
  end.

(** The columns of a row, the id left out, and what the specification
    expects them to be for a record. *)
Definition stored_columns (r : TuneRow.t) :=
  (TuneRow.book_id r, TuneRow.reference_number r, TuneRow.title r,
   TuneRow.rhythm r, TuneRow.key_sig r, TuneRow.content r).

Definition expected_columns (t : TuneDict.t) :=
  (TuneDict.book_id t, TuneDict.X t, or_unknown (TuneDict.T t),
   or_unknown (TuneDict.R t), or_unknown (TuneDict.K t), TuneDict.content t).

(** A text of two tunes, the first without title, rhythm or key, and the
    dictionaries it parses to under book 5. *)
Definition bare_and_named : str :=
  text ["X:1"; "ABC|"; "X:2"; "T:Named"; "K:G"]%string.

Definition bare_tune : TuneDict.t :=
  TuneDict.mk (Some 5%Z) (Some (text ["X:1"; "ABC|"]%string))
    (Some (lit "1")) None None None.

Definition named_tune : TuneDict.t :=
  TuneDict.mk (Some 5%Z) (Some (text ["X:2"; "T:Named"; "K:G"]%string))
    (Some (lit "2")) (Some (lit "Named")) None (Some (lit "G")).

(** ** Derived forms of the loop, used by the proofs *)

(** The list returned if the input ended in this state. *)
Definition closed (st : state) : list TuneDict.t :=
  if TuneDict.nonempty (current_tune st)
  then tunes st ++ [current_tune st] else tunes st.

(** The dictionary an opening line creates. *)
Definition opened (book_id : Z) (line : str) : TuneDict.t :=
  TuneDict.mk (Some book_id) (Some (line ++ [LF]))
    (Some (between_colons line)) None None None.

(** What a stripped, non-blank line that does not open a record does to the
    open record. *)
Definition absorb (d : TuneDict.t) (line : str) : TuneDict.t :=
  let cur := TuneDict.set_content d (get (TuneDict.content d) [] ++ line ++ [LF]) in
  if startswith line T_marker then
    match TuneDict.T cur with
    | None => TuneDict.set_T cur (between_colons line)
    | Some _ => cur
    end
  else if startswith line R_marker then TuneDict.set_R cur (between_colons line)
  else if startswith line K_marker then TuneDict.set_K cur (between_colons line)
  else cur.

(** The dictionary of a record, from its opening line and its body. *)
Definition record_of (book_id : Z) (seg : str * list str) : TuneDict.t :=
  fold_left absorb (kept (snd seg)) (opened book_id (strip (fst seg))).

(** The row that [insert_tune] writes for a dictionary, given its id. *)
Definition row_of (id : Z) (tune_data : TuneDict.t) : TuneRow.t :=
  TuneRow.mk id (TuneDict.book_id tune_data) (TuneDict.X tune_data)
    (Some (get (TuneDict.T tune_data) Unknown))
    (Some (get (TuneDict.R tune_data) Unknown))
    (Some (get (TuneDict.K tune_data) Unknown))
    (Some (get (TuneDict.content tune_data) [])).

Fixpoint rows_from (start : Z) (ts : list TuneDict.t) : list TuneRow.t :=
  match ts with
  | [] => []
  | t :: ts' => row_of start t :: rows_from (start + 1) ts'
  end.

(** A dictionary whose book number SQLite can hold. *)
Definition storable (tune_data : TuneDict.t) : Prop :=
  match TuneDict.book_id tune_data with
  | Some z => fits_int64 z = true
  | None => True
  end.

(** The table keeps its counter at or above every id, and ids positive. *)
Definition counted (tbl : tunes_table) : Prop :=
  (0 <= max_rowid (rows tbl) <= sqlite_sequence tbl)%Z.

(** A pattern in which every character stands for itself. *)
Definition plain (pat : str) : bool :=
  forallb (fun c => Re.ascii c && negb (Re.special c)) pat.

Definition ascii_cell (cell : option str) : bool :=
  match cell with
  | Some s => forallb Re.ascii s
  | None => true
  end.

(** The locals are consistent: a record is open exactly when the dictionary
    is not empty, and an open record has its content. *)
Definition consistent (st : state) : Prop :=
  (in_tune st = true ->
     TuneDict.content (current_tune st) <> None) /\
  (in_tune st = false -> current_tune st = TuneDict.empty).

(** Putting tunes in front of those of an outcome. *)
Definition prepend (front : list TuneDict.t) (o : outcome) : outcome :=
  match o with
  | Next st => Next (mk_state (front ++ tunes st) (current_tune st) (in_tune st))
  | Raised e ts => Raised e (front ++ ts)
  end.

(** ** TuneAnalyzer.plot_key_distribution *)

(** A cell of a DataFrame read from [tunes]: an integer or a text, or
    NULL. *)
Inductive cell : Type :=
| IntCell (v : option Z)
| TextCell (v : option str).

Definition str_eqb (a b : str) : bool :=
  if list_eq_dec N.eq_dec a b then true else false.

(** [df[key]]: the column of that name, among the seven that [SELECT *]
    brings from [tunes]; KeyError for any other name. *)
Definition getitem (df : DataFrame) (key : str) : result (list cell) :=
  if str_eqb key (lit "id") then Ok (map (fun r => IntCell (Some (TuneRow.id r))) df)
  else if str_eqb key (lit "book_id") then Ok (map (fun r => IntCell (TuneRow.book_id r)) df)
  else if str_eqb key (lit "reference_number")
    then Ok (map (fun r => TextCell (TuneRow.reference_number r)) df)
  else if str_eqb key (lit "title") then Ok (map (fun r => TextCell (TuneRow.title r)) df)
  else if str_eqb key (lit "rhythm") then Ok (map (fun r => TextCell (TuneRow.rhythm r)) df)
  else if str_eqb key (lit "key_sig") then Ok (map (fun r => TextCell (TuneRow.key_sig r)) df)
  else if str_eqb key (lit "content") then Ok (map (fun r => TextCell (TuneRow.content r)) df)
  else Raise (KeyError key).

(** What the method does as seen from outside: it prints that there is
    nothing to plot, or it draws the bars of the counts it is given. *)
Inductive plotted : Type :=
| NoDataToPlot
| Bars (counts : list (cell * nat)).

Section Plot.

(** [Series.value_counts()], whose order among equal counts pandas does not
    fix, is left to the caller. *)
Variable value_counts : list cell -> list (cell * nat).

Definition plot_key_distribution (df : DataFrame) : result plotted :=
  match df with
  | [] => Ok NoDataToPlot
  | _ :: _ =>
      column <- getitem df (lit "key_clean") ;;
      Ok (Bars (firstn 10 (value_counts column)))
  end.

End Plot.

(** ** setup_data.create_dummy_data *)

(** [str(i)] for the one-digit numbers, all that [range(3)] gives. *)
Definition str_of_digit (i : nat) : str := [N.of_nat (48 + i)].

(** The text written to [sample{i}.abc]. *)
Definition dummy_content (i : nat) : str :=
  lit "X:" ++ str_of_digit i ++ lit "01" ++ [LF] ++
  lit "T:The Test Reel " ++ str_of_digit i ++ [LF] ++
  lit "R:Reel" ++ [LF] ++
  lit "M:4/4" ++ [LF] ++
  lit "K:D" ++ [LF] ++
  lit "ABCD EFGH|" ++ [LF] ++
  lit "%---" ++ [LF] ++
  lit "X:" ++ str_of_digit i ++ lit "02" ++ [LF] ++
  lit "T:The Quick Jig " ++ str_of_digit i ++ [LF] ++
  lit "R:Jig" ++ [LF] ++
  lit "M:6/8" ++ [LF] ++
  lit "K:G" ++ [LF] ++
  lit "GBdB GBdB|" ++ [LF].

(** The file [abc_books/{i}/sample{i}.abc] as the run finds it afterwards:
    the folder name is [str(i)], which [int] reads back as [i]. *)
Definition dummy_file (i : nat) : abc_file :=
  mk_file (lit "abc_books/" ++ str_of_digit i ++ lit "/sample" ++ str_of_digit i ++ lit ".abc")
    (lit "sample" ++ str_of_digit i ++ lit ".abc")
    (str_of_digit i) (Some (Z.of_nat i)) (Readable (dummy_content i)).

(** [create_dummy_data]: the files of books 0, 1 and 2. *)
Definition create_dummy_data : list abc_file := map dummy_file (seq 0 3).

(** What the two tunes of [sample{i}.abc] should look like in the table:
    reference number, title, rhythm, key, content. *)
Definition dummy_columns (i : nat) :=
  [ (Some (str_of_digit i ++ lit "01"),
     Some (lit "The Test Reel " ++ str_of_digit i),
     Some (lit "Reel"), Some (lit "D"),
     Some (lit "X:" ++ str_of_digit i ++ lit "01" ++ [LF] ++
           lit "T:The Test Reel " ++ str_of_digit i ++ [LF] ++
           lit "R:Reel" ++ [LF] ++ lit "M:4/4" ++ [LF] ++ lit "K:D" ++ [LF] ++
           lit "ABCD EFGH|" ++ [LF] ++ lit "%---" ++ [LF]));
    (Some (str_of_digit i ++ lit "02"),
     Some (lit "The Quick Jig " ++ str_of_digit i),
     Some (lit "Jig"), Some (lit "G"),
     Some (lit "X:" ++ str_of_digit i ++ lit "02" ++ [LF] ++
           lit "T:The Quick Jig " ++ str_of_digit i ++ [LF] ++
           lit "R:Jig" ++ [LF] ++ lit "M:6/8" ++ [LF] ++ lit "K:G" ++ [LF] ++
           lit "GBdB GBdB|" ++ [LF])) ].

(** A line that carries one of the four markers. *)
Definition is_header (raw : str) : bool :=
  startswith (strip raw) X_marker || startswith (strip raw) T_marker ||
  startswith (strip raw) R_marker || startswith (strip raw) K_marker.

(** The total of a run, a number of tunes added to it. *)
Definition add_total (n : nat) (r : result nat) : result nat :=
  match r with
  | Ok m => Ok (n + m)
  | Raise e => Raise e
  end.

(** ** Vocabulary of the further properties *)

(** A text with its line ends written the DOS way (CR LF) and the old Mac
    way (CR). *)
Fixpoint dos_newlines (s : str) : str :=
  match s with
  | [] => []
  | c :: s' =>
      if (c =? LF)%N then CR :: LF :: dos_newlines s' else c :: dos_newlines s'
  end.

Definition mac_newlines (s : str) : str :=
  map (fun c => if (c =? LF)%N then CR else c) s.

(** The same dictionary under another book number. *)
Definition rebook (book_id : Z) (d : TuneDict.t) : TuneDict.t :=
  TuneDict.mk (Some book_id) (TuneDict.content d) (TuneDict.X d)
    (TuneDict.T d) (TuneDict.R d) (TuneDict.K d).

(** The four header fields of a dictionary. *)
Definition header_fields (d : TuneDict.t) : list (option str) :=
  [TuneDict.X d; TuneDict.T d; TuneDict.R d; TuneDict.K d].

(** The contents of a list of dictionaries, one after the other. *)
Definition contents (ts : list TuneDict.t) : str :=
  List.concat (map (fun t => get (TuneDict.content t) []) ts).

(** A line as the loop sees it once stripped, when it comes from
    [readlines]: no newline and no carriage return in it. *)
Definition tidy (l : str) : Prop := ~ In LF l /\ ~ In CR l.

(** The databases the program can bring about: a file just created, a
    database opened by [TuneDatabase], a database after an insert that went
    through. *)
Inductive built : database -> Prop :=
| built_new : built new_file
| built_open (db : database) : built db -> built (TuneDatabase db)
| built_insert (db db' : database) (tune_data : TuneDict.t) :
    built db -> insert_tune db tune_data = Ok db' -> built db'.

(** The ids of a table go up along its rows, from 1 to the counter. *)
Definition well_numbered (tbl : tunes_table) : Prop :=
  StronglySorted Z.lt (map TuneRow.id (rows tbl)) /\
  Forall (fun r => (1 <= TuneRow.id r <= sqlite_sequence tbl)%Z) (rows tbl) /\
  (0 <= sqlite_sequence tbl)%Z.

(** A row with a title, a rhythm, a key and a content, none of them NULL. *)
Definition filled (r : TuneRow.t) : Prop :=
  TuneRow.title r <> None /\ TuneRow.rhythm r <> None /\
  TuneRow.key_sig r <> None /\ TuneRow.content r <> None.

(** The tunes a file brings to the run, and those of all the files. *)
Definition tunes_of_file (f : abc_file) : list TuneDict.t :=
  match book_number f with
  | Some book_id => fst (parse_abc_file (file_path f) (file f) book_id)
  | None => []
  end.

Definition all_tunes (files : list abc_file) : list TuneDict.t :=
  flat_map tunes_of_file files.

(** The lines the run prints for a file that it gets through. *)
Definition report (f : abc_file) : list message :=
  match book_number f with
  | Some book_id =>
      snd (parse_abc_file (file_path f) (file f) book_id) ++
      [Processed book_id (name f) (List.length (tunes_of_file f))]
  | None => [Skipping (file_path f) (parent_name f)]
  end.

(** The columns of a row that come from the tune, the id left out. *)
Definition tune_columns (r : TuneRow.t) :=
  (TuneRow.book_id r, TuneRow.reference_number r, TuneRow.title r,
   TuneRow.rhythm r, TuneRow.key_sig r, TuneRow.content r).

(** Two more files of a run: one under a folder that is no number, one
    under a folder whose number does not fit 64 bits. *)
Definition stray_file : abc_file :=
  mk_file (lit "abc_books/notes/draft.abc") (lit "draft.abc") (lit "notes")
    None (Readable section8_text).

Definition huge_book_file : abc_file :=
  mk_file (lit "abc_books/9223372036854775808/big.abc") (lit "big.abc")
    (lit "9223372036854775808") (Some (2 ^ 63)%Z) (Readable section8_text).

(** The files of one book. *)
Definition of_book (book_id : Z) (f : abc_file) : bool :=
  match book_number f with
  | Some z => (z =? book_id)%Z
  | None => false
  end.

(** A file whose folder number, if it is one, SQLite can hold. *)
Definition book_fits (f : abc_file) : Prop :=
  match book_number f with
  | Some z => fits_int64 z = true
  | None => True
  end.

(** * Properties *)

(** ** Strings *)

Section Strings.

Lemma lstrip_app (a b : str) :
  lstrip (a ++ b) = match lstrip a with [] => lstrip b | _ :: _ => lstrip a ++ b end.
Proof.
  induction a as [|c a IH]; simpl.
  - destruct (lstrip b); reflexivity.
  - destruct (is_space c); [exact IH | reflexivity].
Qed.

Lemma lstrip_head (s : str) (c : char) (t : str) :
  lstrip s = c :: t -> is_space c = false.
Proof.
  induction s as [|d s IH]; simpl; [discriminate|].
  destruct (is_space d) eqn:E; [exact IH|].
  intros H; injection H as <- _; exact E.
Qed.

Lemma lstrip_idem (s : str) : lstrip (lstrip s) = lstrip s.
Proof.
  destruct (lstrip s) as [|c t] eqn:E; [reflexivity|].
  simpl. rewrite (lstrip_head _ _ _ E). reflexivity.
Qed.

Lemma lstrip_incl (s : str) (c : char) : In c (lstrip s) -> In c s.
Proof.
  induction s as [|d s IH]; simpl; [tauto|].
  destruct (is_space d); [right; auto | simpl; tauto].
Qed.

Lemma rstrip_snoc (s : str) (c : char) :
  rstrip (s ++ [c]) = if is_space c then rstrip s else s ++ [c].
Proof.
  unfold rstrip. rewrite rev_app_distr. simpl.
  destruct (is_space c); [reflexivity|].
  simpl. rewrite rev_involutive. reflexivity.
Qed.

Lemma rstrip_incl (s : str) (c : char) : In c (rstrip s) -> In c s.
Proof.
  unfold rstrip. intros H. apply in_rev in H. apply lstrip_incl in H.
  apply in_rev in H. exact H.
Qed.

Lemma rstrip_idem (s : str) : rstrip (rstrip s) = rstrip s.
Proof.
  unfold rstrip. rewrite rev_involutive, lstrip_idem. reflexivity.
Qed.

(** Trimming on the right leaves the first character where it is. *)
Lemma rstrip_cons (c : char) (s : str) :
  is_space c = false -> exists t, rstrip (c :: s) = c :: t.
Proof.
  intros Hc. induction s as [|d s IH] using rev_ind.
  - exists []. change [c] with ([] ++ [c]). rewrite rstrip_snoc, Hc. reflexivity.
  - change (c :: s ++ [d]) with ((c :: s) ++ [d]). rewrite rstrip_snoc.
    destruct (is_space d); [exact IH | eexists; reflexivity].
Qed.

Lemma lstrip_rstrip_fix (s : str) : lstrip (rstrip (lstrip s)) = rstrip (lstrip s).
Proof.
  destruct (lstrip s) as [|c t] eqn:E; [reflexivity|].
  destruct (rstrip_cons c t (lstrip_head _ _ _ E)) as [u ->].
  simpl. rewrite (lstrip_head _ _ _ E). reflexivity.
Qed.

Lemma strip_idem (s : str) : strip (strip s) = strip s.
Proof.
  unfold strip. rewrite lstrip_rstrip_fix, rstrip_idem. reflexivity.
Qed.

Lemma strip_incl (s : str) (c : char) : In c (strip s) -> In c s.
Proof.
  unfold strip. intros H. apply lstrip_incl, rstrip_incl, H.
Qed.

(** A trailing whitespace character does not survive, nor change the rest. *)
Lemma strip_snoc_space (s : str) (c : char) :
  is_space c = true -> strip (s ++ [c]) = strip s.
Proof.
  intros Hc. unfold strip. rewrite lstrip_app.
  destruct (lstrip s) as [|d t] eqn:E.
  - simpl. rewrite Hc. reflexivity.
  - rewrite rstrip_snoc, Hc. reflexivity.
Qed.

Lemma split_not_nil (s : str) (sep : char) : split s sep <> [].
Proof.
  destruct s as [|c s]; simpl; [discriminate|].
  destruct (c =? sep)%N; [discriminate|].
  destruct (split s sep); discriminate.
Qed.

(** After a marker (a letter, then the colon) the split has a second part. *)
Lemma split_marker (a : char) (rest : str) :
  a <> COLON ->
  split (a :: COLON :: rest) COLON = [a] :: split rest COLON.
Proof.
  intros Ha. cbn [split].
  apply N.eqb_neq in Ha. rewrite Ha, N.eqb_refl. reflexivity.
Qed.

Lemma startswith_marker (line : str) (a : char) :
  startswith line [a; COLON] = true -> exists rest, line = a :: COLON :: rest.
Proof.
  destruct line as [|c [|d rest]]; simpl; try discriminate.
  - rewrite andb_false_r. discriminate.
  - intros H. apply andb_true_iff in H as [H1 H2].
    apply andb_true_iff in H2 as [H2 _].
    apply N.eqb_eq in H1, H2. subst. eexists; reflexivity.
Qed.

Lemma header_value_marker (line : str) (a : char) :
  a <> COLON -> startswith line [a; COLON] = true ->
  header_value line = Ok (between_colons line).
Proof.
  intros Ha H. destruct (startswith_marker _ _ H) as [rest ->].
  unfold header_value, between_colons. rewrite (split_marker _ _ Ha).
  destruct (split rest COLON) as [|v vs] eqn:E; [|reflexivity].
  exfalso; exact (split_not_nil _ _ E).
Qed.

Lemma strip_all_space (s : str) : forallb is_space s = true -> strip s = [].
Proof.
  intros H. unfold strip.
  assert (L : lstrip s = []).
  { induction s as [|c s IH]; [reflexivity|]. cbn in *.
    apply andb_true_iff in H as [Hc Hs]. rewrite Hc. apply IH, Hs. }
  rewrite L. reflexivity.
Qed.

(** A line cut by [keepends] has no newline but, maybe, its terminator. *)
Lemma keepends_lines (s : str) :
  Forall (fun l => exists body, (l = body ++ [LF] \/ l = body) /\ ~ In LF body)
         (keepends s).
Proof.
  induction s as [|c s IH]; cbn [keepends]; [constructor|].
  destruct (c =? LF)%N eqn:E.
  - constructor; [|exact IH]. exists []. split; [left|intros []].
    apply N.eqb_eq in E. subst. reflexivity.
  - apply N.eqb_neq in E. destruct (keepends s) as [|l ls].
    + constructor; [|constructor]. exists [c]. split; [right; reflexivity|].
      intros [H|[]]; congruence.
    + inversion IH as [|? ? (body & Hl & Hb) Hls]; subst.
      constructor; [|exact Hls]. exists (c :: body). split.
      * destruct Hl as [-> | ->]; [left | right]; reflexivity.
      * intros [H|H]; [congruence | exact (Hb H)].
Qed.

Lemma strip_line_no_LF (raw body : str) :
  raw = body ++ [LF] \/ raw = body -> ~ In LF body -> ~ In LF (strip raw).
Proof.
  intros [-> | ->] Hb H; apply Hb.
  - rewrite strip_snoc_space in H by reflexivity. apply strip_incl, H.
  - apply strip_incl, H.
Qed.

Lemma readlines_strip_no_LF (src : str) :
  Forall (fun raw => ~ In LF (strip raw)) (readlines src).
Proof.
  unfold readlines. eapply Forall_impl; [|apply keepends_lines].
  cbn. intros raw (body & Hl & Hb). apply (strip_line_no_LF raw body Hl Hb).
Qed.

Lemma keepends_line (l rest : str) :
  ~ In LF l -> keepends (l ++ LF :: rest) = (l ++ [LF]) :: keepends rest.
Proof.
  induction l as [|c l IH]; intros H; cbn [app keepends].
  - rewrite N.eqb_refl. reflexivity.
  - destruct (c =? LF)%N eqn:E.
    + apply N.eqb_eq in E. exfalso. apply H. left. exact E.
    + rewrite IH; [reflexivity|]. intros Hin. apply H. right. exact Hin.
Qed.

Lemma keepends_unlines (ls : list str) :
  Forall (fun l => ~ In LF l) ls ->
  keepends (unlines ls) = map (fun l => l ++ [LF]) ls.
Proof.
  induction 1 as [|l ls Hl _ IH]; [reflexivity|].
  unfold unlines. cbn [map List.concat]. rewrite <- app_assoc. cbn [app].
  rewrite (keepends_line l _ Hl). f_equal. exact IH.
Qed.

(** The split at the first separator, and the value of a header line with
    one colon and with two. *)
Lemma split_no_sep (v : str) (sep : char) :
  ~ In sep v -> split v sep = [v].
Proof.
  induction v as [|c v IH]; intros H; cbn [split]; [reflexivity|].
  destruct (c =? sep)%N eqn:E.
  - apply N.eqb_eq in E. exfalso. apply H. left. exact E.
  - rewrite IH; [reflexivity|]. intros Hin. apply H. right. exact Hin.
Qed.

Lemma split_at_first (a v : str) (sep : char) :
  ~ In sep a -> split (a ++ sep :: v) sep = a :: split v sep.
Proof.
  induction a as [|c a IH]; intros H; cbn [app split].
  - rewrite N.eqb_refl. reflexivity.
  - destruct (c =? sep)%N eqn:E.
    + apply N.eqb_eq in E. exfalso. apply H. left. exact E.
    + rewrite IH; [reflexivity|]. intros Hin. apply H. right. exact Hin.
Qed.

Lemma after_colon_at_first (a v : str) :
  ~ In COLON a -> after_colon (a ++ COLON :: v) = strip v.
Proof.
  induction a as [|c a IH]; intros H; cbn [app after_colon].
  - reflexivity.
  - destruct (c =? COLON)%N eqn:E.
    + apply N.eqb_eq in E. exfalso. apply H. left. exact E.
    + apply IH. intros Hin. apply H. right. exact Hin.
Qed.

Lemma between_colons_one_colon (a v : str) :
  ~ In COLON a -> ~ In COLON v ->
  between_colons (a ++ COLON :: v) = after_colon (a ++ COLON :: v).
Proof.
  intros Ha Hv. unfold between_colons.
  rewrite (split_at_first a v COLON Ha), (split_no_sep v COLON Hv).
  rewrite (after_colon_at_first a v Ha). reflexivity.
Qed.

Lemma between_colons_two_colons (a v w : str) :
  ~ In COLON a -> ~ In COLON v ->
  between_colons (a ++ COLON :: v ++ COLON :: w) = strip v /\
  after_colon (a ++ COLON :: v ++ COLON :: w) = strip (v ++ COLON :: w).
Proof.
  intros Ha Hv. unfold between_colons.
  rewrite (split_at_first a _ COLON Ha), (split_at_first v w COLON Hv).
  rewrite (after_colon_at_first a _ Ha). split; reflexivity.
Qed.

(** Reading lines commutes with cutting the text after a newline. *)
Lemma translate_newlines_LF (n : nat) :
  forall a b, List.length a <= n ->
  translate_newlines (a ++ LF :: b) =
  translate_newlines (a ++ [LF]) ++ translate_newlines b /\
  exists t, translate_newlines (a ++ [LF]) = t ++ [LF].
Proof.
  induction n as [|n IH]; intros a b Hn.
  - destruct a; [|cbn in Hn; lia]. split; [reflexivity | exists []; reflexivity].
  - destruct a as [|c a]; [split; [reflexivity | exists []; reflexivity]|].
    cbn [List.length] in Hn. cbn [app translate_newlines].
    destruct (c =? CR)%N.
    + destruct a as [|d a]; cbn [app].
      * split; [reflexivity | exists []; reflexivity].
      * cbn [List.length] in Hn. destruct (d =? LF)%N.
        -- destruct (IH a b ltac:(lia)) as [E [t Et]]. rewrite E, Et. split.
           ++ reflexivity.
           ++ exists (LF :: t). reflexivity.
        -- destruct (IH (d :: a) b ltac:(cbn; lia)) as [E [t Et]].
           cbn [app] in E, Et. rewrite E, Et. split.
           ++ reflexivity.
           ++ exists (LF :: t). reflexivity.
    + destruct (IH a b ltac:(lia)) as [E [t Et]]. rewrite E, Et. split.
      * reflexivity.
      * exists (c :: t). reflexivity.
Qed.

Lemma keepends_nil (s : str) : keepends s = [] -> s = [].
Proof.
  destruct s as [|c s]; [reflexivity|]. cbn [keepends].
  destruct (c =? LF)%N; [discriminate|]. destruct (keepends s); discriminate.
Qed.

Lemma keepends_LF (a b : str) :
  keepends (a ++ LF :: b) = keepends (a ++ [LF]) ++ keepends b.
Proof.
  induction a as [|c a IH]; cbn [app keepends].
  - reflexivity.
  - destruct (c =? LF)%N; [rewrite IH; reflexivity|].
    rewrite IH. destruct (keepends (a ++ [LF])) as [|l ls] eqn:E; [|reflexivity].
    apply keepends_nil in E. destruct a; discriminate E.
Qed.

Lemma readlines_LF (a b : str) :
  readlines (a ++ LF :: b) = readlines (a ++ [LF]) ++ readlines b.
Proof.
  unfold readlines.
  destruct (translate_newlines_LF (List.length a) a b (le_n _)) as [E [t Et]].
  rewrite E, Et, <- app_assoc. cbn [app]. rewrite keepends_LF. reflexivity.
Qed.

Lemma translate_newlines_id (w : str) :
  ~ In CR w -> translate_newlines w = w.
Proof.
  induction w as [|c w IH]; intros H; [reflexivity|]. cbn [translate_newlines].
  destruct (c =? CR)%N eqn:E.
  - apply N.eqb_eq in E. exfalso. apply H. left. exact E.
  - rewrite IH; [reflexivity|]. intros Hin. apply H. right. exact Hin.
Qed.

(** A line of its own, put where a line starts, is one more line read. *)
Lemma readlines_insert_line (p w b : str) :
  p = [] \/ (exists a, p = a ++ [LF]) -> ~ In LF w -> ~ In CR w ->
  readlines (p ++ w ++ LF :: b) = readlines p ++ [w ++ [LF]] ++ readlines b /\
  readlines (p ++ b) = readlines p ++ readlines b.
Proof.
  intros Hp Hl Hc.
  assert (W : readlines (w ++ [LF]) = [w ++ [LF]]).
  { unfold readlines. rewrite translate_newlines_id.
    - rewrite (keepends_line w [] Hl). reflexivity.
    - intros H. apply in_app_or in H as [H | [H | []]]; [exact (Hc H) | discriminate H]. }
  destruct Hp as [-> | [a ->]]; cbn [app].
  - rewrite readlines_LF, W. split; reflexivity.
  - rewrite <- !app_assoc. cbn [app].
    rewrite (readlines_LF a (w ++ LF :: b)), (readlines_LF w b), W.
    rewrite (readlines_LF a b). split; reflexivity.
Qed.

End Strings.

(** ** One iteration of the loop *)

Section LoopBody.

Variable book_id : Z.

Lemma opens_not_blank (raw : str) : opens raw = true -> blank raw = false.
Proof.
  unfold opens, blank. destruct (strip raw); [discriminate | reflexivity].
Qed.

Lemma loop_body_blank (st : state) (raw : str) :
  blank raw = true -> loop_body book_id st raw = Next st.
Proof.
  unfold blank, loop_body. destruct (strip raw); [reflexivity | discriminate].
Qed.

Lemma loop_body_opens (st : state) (raw : str) :
  opens raw = true ->
  loop_body book_id st raw =
  Next (mk_state (closed st) (opened book_id (strip raw)) true).
Proof.
  unfold opens, loop_body. intros H.
  destruct (strip raw) as [|c line] eqn:E; [discriminate|].
  rewrite H. rewrite (header_value_marker (c :: line) 88%N); [reflexivity | discriminate | exact H].
Qed.

Lemma loop_body_outside (st : state) (raw : str) :
  opens raw = false -> in_tune st = false -> loop_body book_id st raw = Next st.
Proof.
  unfold opens, loop_body. intros H Hin.
  destruct (strip raw); [reflexivity|]. rewrite H, Hin. reflexivity.
Qed.

Lemma loop_body_absorb (st : state) (raw : str) :
  blank raw = false -> opens raw = false -> in_tune st = true ->
  TuneDict.content (current_tune st) <> None ->
  loop_body book_id st raw =
  Next (mk_state (tunes st) (absorb (current_tune st) (strip raw)) true).
Proof.
  unfold blank, opens, loop_body. intros Hb Ho Hin Hc.
  destruct (strip raw) as [|c line] eqn:E; [discriminate|].
  rewrite Ho, Hin. unfold TuneDict.getitem_content, absorb.
  destruct (TuneDict.content (current_tune st)) as [txt|] eqn:Ec; [|congruence].
  cbn [bind get lift].
  destruct (startswith (c :: line) T_marker) eqn:HT.
  { cbn [TuneDict.set_content TuneDict.T].
    destruct (TuneDict.T (current_tune st)); [reflexivity|].
    rewrite (header_value_marker (c :: line) 84%N); [reflexivity | discriminate | exact HT]. }
  destruct (startswith (c :: line) R_marker) eqn:HR.
  { rewrite (header_value_marker (c :: line) 82%N); [reflexivity | discriminate | exact HR]. }
  destruct (startswith (c :: line) K_marker) eqn:HK.
  { rewrite (header_value_marker (c :: line) 75%N); [reflexivity | discriminate | exact HK]. }
  reflexivity.
Qed.

Lemma absorb_content (d : TuneDict.t) (line : str) :
  TuneDict.content (absorb d line) =
  Some (get (TuneDict.content d) [] ++ line ++ [LF]).
Proof.
  unfold absorb.
  destruct (startswith line T_marker); [cbn; destruct (TuneDict.T d); reflexivity|].
  destruct (startswith line R_marker); [reflexivity|].
  destruct (startswith line K_marker); reflexivity.
Qed.

(** Every iteration keeps the locals consistent and raises nothing. *)
Lemma loop_body_consistent (st : state) (raw : str) :
  consistent st ->
  exists st', loop_body book_id st raw = Next st' /\ consistent st'.
Proof.
  intros [Hc He].
  destruct (blank raw) eqn:Hb.
  { exists st. split; [apply loop_body_blank; exact Hb | split; assumption]. }
  destruct (opens raw) eqn:Ho.
  { eexists. split; [apply loop_body_opens; exact Ho|].
    split; cbn; [discriminate | discriminate]. }
  destruct (in_tune st) eqn:Hin.
  - eexists. split; [apply loop_body_absorb; auto|].
    split; cbn; [intros _; rewrite absorb_content; discriminate | discriminate].
  - exists st. split; [apply loop_body_outside; assumption|].
    split; [rewrite Hin; discriminate | intros _; apply He; reflexivity].
Qed.

(** Tunes already closed play no part in an iteration. *)
Lemma loop_body_prepend (front : list TuneDict.t) (st : state) (raw : str) :
  loop_body book_id
    (mk_state (front ++ tunes st) (current_tune st) (in_tune st)) raw =
  prepend front (loop_body book_id st raw).
Proof.
  destruct st as [ts cur it]. unfold loop_body. cbn [tunes current_tune in_tune].
  destruct (strip raw) as [|c line]; [reflexivity|].
  destruct (startswith (c :: line) X_marker).
  { destruct (header_value (c :: line)); cbn;
      destruct (TuneDict.nonempty cur); cbn;
      rewrite ?app_assoc; reflexivity. }
  destruct it; [|reflexivity].
  destruct (TuneDict.getitem_content cur); [|reflexivity].
  cbn [bind].
  destruct (startswith (c :: line) T_marker).
  { destruct (TuneDict.T _); [reflexivity|].
    destruct (header_value (c :: line)); reflexivity. }
  destruct (startswith (c :: line) R_marker).
  { destruct (header_value (c :: line)); reflexivity. }
  destruct (startswith (c :: line) K_marker).
  { destruct (header_value (c :: line)); reflexivity. }
  reflexivity.
Qed.

End LoopBody.

(** ** The whole loop *)

Section Loop.

Variable book_id : Z.

Lemma consistent_initial : consistent initial.
Proof. split; [discriminate | reflexivity]. Qed.

Lemma run_loop_app (st : state) (l1 l2 : list str) :
  run_loop book_id st (l1 ++ l2) =
  match run_loop book_id st l1 with
  | Next st' => run_loop book_id st' l2
  | Raised e ts => Raised e ts
  end.
Proof.
  revert st. induction l1 as [|raw l1 IH]; intros st; simpl; [reflexivity|].
  destruct (loop_body book_id st raw); [apply IH | reflexivity].
Qed.

(** The loop runs to the end of the lines: no iteration raises. *)
Lemma run_loop_total (st : state) (lines : list str) :
  consistent st ->
  exists st', run_loop book_id st lines = Next st' /\ consistent st'.
Proof.
  revert st. induction lines as [|raw lines IH]; intros st Hst; simpl.
  - exists st. split; [reflexivity | exact Hst].
  - destruct (loop_body_consistent book_id st raw Hst) as (st1 & -> & Hst1).
    apply IH, Hst1.
Qed.

Lemma run_loop_prepend (front : list TuneDict.t) (st : state) (lines : list str) :
  run_loop book_id
    (mk_state (front ++ tunes st) (current_tune st) (in_tune st)) lines =
  prepend front (run_loop book_id st lines).
Proof.
  revert st. induction lines as [|raw lines IH]; intros st; simpl; [reflexivity|].
  rewrite loop_body_prepend.
  destruct (loop_body book_id st raw) as [st1|e ts]; cbn [prepend]; [|reflexivity].
  apply (IH st1).
Qed.

Lemma closed_prepend (front : list TuneDict.t) (st : state) :
  closed (mk_state (front ++ tunes st) (current_tune st) (in_tune st)) =
  front ++ closed st.
Proof.
  unfold closed. cbn [tunes current_tune].
  destruct (TuneDict.nonempty (current_tune st)); [symmetry; apply app_assoc | reflexivity].
Qed.

(** Blank lines leave the locals as they are. *)
Lemma run_loop_skip_blank (st : state) (lines : list str) :
  run_loop book_id st (filter (fun raw => negb (blank raw)) lines) =
  run_loop book_id st lines.
Proof.
  revert st. induction lines as [|raw lines IH]; intros st; [reflexivity|].
  cbn [filter]. destruct (blank raw) eqn:Hb; cbn [negb run_loop].
  - rewrite (loop_body_blank book_id st raw Hb). apply IH.
  - destruct (loop_body book_id st raw); [apply IH | reflexivity].
Qed.

(** Lines that open nothing, met while no record is open, are dropped. *)
Lemma run_loop_outside (st : state) (lines : list str) :
  Forall (fun raw => opens raw = false) lines -> in_tune st = false ->
  run_loop book_id st lines = Next st.
Proof.
  intros H Hin. induction H as [|raw lines Hraw _ IH]; [reflexivity|].
  simpl. rewrite (loop_body_outside book_id st raw Hraw Hin). exact IH.
Qed.

(** Lines that open nothing, met while a record is open, are absorbed by
    it one after the other. *)
Lemma run_loop_record (st : state) (body : list str) :
  Forall (fun raw => opens raw = false) body -> in_tune st = true ->
  TuneDict.content (current_tune st) <> None ->
  run_loop book_id st body =
  Next (mk_state (tunes st) (fold_left absorb (kept body) (current_tune st)) true).
Proof.
  intros H. revert st. induction H as [|raw body Hraw _ IH]; intros st Hin Hc.
  - destruct st; cbn in *; subst; reflexivity.
  - cbn [run_loop]. unfold kept. cbn [filter].
    destruct (blank raw) eqn:Hb; cbn [negb].
    + rewrite (loop_body_blank book_id st raw Hb). apply IH; assumption.
    + rewrite (loop_body_absorb book_id st raw Hb Hraw Hin Hc).
      rewrite IH; cbn [tunes current_tune in_tune map fold_left];
        [reflexivity | reflexivity | rewrite absorb_content; discriminate].
Qed.

End Loop.

(** ** What [parse_lines] returns *)

Section ParseLines.

Variables (filepath : str) (book_id : Z).

(** The parser prints nothing and returns what the loop has closed, with
    the record still open at the end. *)
Lemma parse_lines_closed (lines : list str) :
  exists st,
    run_loop book_id initial lines = Next st /\ consistent st /\
    parse_lines filepath lines book_id = (closed st, []).
Proof.
  destruct (run_loop_total book_id initial lines consistent_initial) as (st & E & Hst).
  exists st. unfold parse_lines. rewrite E. auto.
Qed.

Lemma parse_lines_silent (lines : list str) :
  snd (parse_lines filepath lines book_id) = [].
Proof.
  destruct (parse_lines_closed lines) as (st & _ & _ & ->). reflexivity.
Qed.

(** An opening line cuts the input: what comes before it and what it
    starts are parsed apart. *)
Lemma parse_lines_cut (before : list str) (x : str) (rest : list str) :
  opens x = true ->
  fst (parse_lines filepath (before ++ x :: rest) book_id) =
  fst (parse_lines filepath before book_id) ++
  fst (parse_lines filepath (x :: rest) book_id).
Proof.
  intros Hx.
  destruct (parse_lines_closed before) as (st1 & E1 & H1 & ->). cbn [fst].
  unfold parse_lines. rewrite run_loop_app, E1. cbn [run_loop].
  rewrite !(loop_body_opens book_id _ x Hx).
  change (closed initial) with (@nil TuneDict.t).
  pose proof (run_loop_prepend book_id (closed st1)
                (mk_state [] (opened book_id (strip x)) true) rest) as P.
  cbn [tunes current_tune in_tune] in P. rewrite app_nil_r in P. rewrite P.
  destruct (run_loop book_id (mk_state [] (opened book_id (strip x)) true) rest)
    as [st2|e ts]; cbn [prepend fst]; [|reflexivity].
  apply (closed_prepend (closed st1) st2).
Qed.

(** A single record: an opening line and lines that open nothing. *)
Lemma parse_lines_one (x : str) (body : list str) :
  opens x = true -> Forall (fun raw => opens raw = false) body ->
  parse_lines filepath (x :: body) book_id =
  ([fold_left absorb (kept body) (opened book_id (strip x))], []).
Proof.
  intros Hx Hbody. unfold parse_lines. cbn [run_loop].
  rewrite (loop_body_opens book_id _ x Hx).
  rewrite run_loop_record; [|exact Hbody|reflexivity|discriminate].
  unfold closed. cbn [tunes current_tune].
  assert (N : forall ls d, TuneDict.nonempty d = true ->
                           TuneDict.content d <> None ->
                           TuneDict.nonempty (fold_left absorb ls d) = true).
  { induction ls as [|l ls IH]; intros d Hd Hc; [exact Hd|].
    cbn [fold_left]. apply IH.
    - pose proof (absorb_content d l) as A. unfold TuneDict.nonempty.
      rewrite A. destruct (TuneDict.book_id _); reflexivity.
    - rewrite absorb_content; discriminate. }
  rewrite N; [reflexivity | reflexivity | discriminate].
Qed.

(** Lines before the first opening line give nothing. *)
Lemma parse_lines_no_open (lines : list str) :
  Forall (fun raw => opens raw = false) lines ->
  parse_lines filepath lines book_id = ([], []).
Proof.
  intros H. unfold parse_lines.
  rewrite (run_loop_outside book_id initial lines H); reflexivity.
Qed.

(** The record of an opening line [x] and its [body], wherever it stands
    in the input: after [before], and followed by [after], which is empty or
    starts with the next opening line. *)
Lemma parse_lines_segment (before : list str) (x : str) (body after : list str) :
  opens x = true -> Forall (fun raw => opens raw = false) body ->
  (after = [] \/ exists y rest, after = y :: rest /\ opens y = true) ->
  fst (parse_lines filepath (before ++ x :: body ++ after) book_id) =
  fst (parse_lines filepath before book_id) ++
  fold_left absorb (kept body) (opened book_id (strip x)) ::
  fst (parse_lines filepath after book_id).
Proof.
  intros Hx Hbody Hafter. rewrite (parse_lines_cut before x _ Hx). f_equal.
  destruct Hafter as [-> | (y & rest & -> & Hy)].
  - rewrite app_nil_r, (parse_lines_one x body Hx Hbody).
    rewrite (parse_lines_no_open []); [reflexivity | constructor].
  - change (x :: body ++ y :: rest) with ((x :: body) ++ y :: rest).
    rewrite (parse_lines_cut (x :: body) y rest Hy).
    rewrite (parse_lines_one x body Hx Hbody). reflexivity.
Qed.

End ParseLines.

(** ** The fields of a record, from the lines it absorbed *)

Section Fields.

Lemma markers_apart (line : str) (a b : char) :
  a <> b -> startswith line [a; COLON] = true -> startswith line [b; COLON] = false.
Proof.
  intros Hab H. destruct (startswith_marker _ _ H) as [rest ->].
  cbn [startswith]. apply N.eqb_neq in Hab. rewrite Hab. reflexivity.
Qed.

Lemma absorb_book_id (d : TuneDict.t) (line : str) :
  TuneDict.book_id (absorb d line) = TuneDict.book_id d.
Proof.
  unfold absorb.
  destruct (startswith line T_marker); [cbn; destruct (TuneDict.T d); reflexivity|].
  destruct (startswith line R_marker); [reflexivity|].
  destruct (startswith line K_marker); reflexivity.
Qed.

Lemma absorb_X (d : TuneDict.t) (line : str) :
  TuneDict.X (absorb d line) = TuneDict.X d.
Proof.
  unfold absorb.
  destruct (startswith line T_marker); [cbn; destruct (TuneDict.T d); reflexivity|].
  destruct (startswith line R_marker); [reflexivity|].
  destruct (startswith line K_marker); reflexivity.
Qed.

Lemma absorb_T (d : TuneDict.t) (line : str) :
  TuneDict.T (absorb d line) =
  match TuneDict.T d with
  | Some t => Some t
  | None => if startswith line T_marker then Some (between_colons line) else None
  end.
Proof.
  destruct d as [b c x t r k]. unfold absorb.
  destruct (startswith line T_marker); [destruct t; reflexivity|].
  destruct (startswith line R_marker); [destruct t; reflexivity|].
  destruct (startswith line K_marker); destruct t; reflexivity.
Qed.

Lemma absorb_R (d : TuneDict.t) (line : str) :
  TuneDict.R (absorb d line) =
  if startswith line R_marker then Some (between_colons line) else TuneDict.R d.
Proof.
  unfold absorb. destruct (startswith line T_marker) eqn:HT.
  - rewrite (markers_apart line 84%N 82%N ltac:(discriminate) HT
               : startswith line R_marker = false).
    cbn. destruct (TuneDict.T d); reflexivity.
  - destruct (startswith line R_marker); [reflexivity|].
    destruct (startswith line K_marker); reflexivity.
Qed.

Lemma absorb_K (d : TuneDict.t) (line : str) :
  TuneDict.K (absorb d line) =
  if startswith line K_marker then Some (between_colons line) else TuneDict.K d.
Proof.
  unfold absorb. destruct (startswith line T_marker) eqn:HT.
  - rewrite (markers_apart line 84%N 75%N ltac:(discriminate) HT
               : startswith line K_marker = false).
    cbn. destruct (TuneDict.T d); reflexivity.
  - destruct (startswith line R_marker) eqn:HR.
    + rewrite (markers_apart line 82%N 75%N ltac:(discriminate) HR
                 : startswith line K_marker = false). reflexivity.
    + destruct (startswith line K_marker); reflexivity.
Qed.

Lemma find_snoc {A : Type} (p : A -> bool) (l : list A) (a : A) :
  find p (l ++ [a]) =
  match find p l with
  | Some x => Some x
  | None => if p a then Some a else None
  end.
Proof.
  induction l as [|b l IH]; simpl; [reflexivity|].
  destruct (p b); [reflexivity | exact IH].
Qed.

Lemma fold_absorb_book_id (ls : list str) (d : TuneDict.t) :
  TuneDict.book_id (fold_left absorb ls d) = TuneDict.book_id d.
Proof.
  revert d. induction ls as [|l ls IH]; intros d; [reflexivity|].
  cbn [fold_left]. rewrite IH. apply absorb_book_id.
Qed.

Lemma fold_absorb_X (ls : list str) (d : TuneDict.t) :
  TuneDict.X (fold_left absorb ls d) = TuneDict.X d.
Proof.
  revert d. induction ls as [|l ls IH]; intros d; [reflexivity|].
  cbn [fold_left]. rewrite IH. apply absorb_X.
Qed.

Lemma fold_absorb_content (ls : list str) (d : TuneDict.t) (c : str) :
  TuneDict.content d = Some c ->
  TuneDict.content (fold_left absorb ls d) = Some (c ++ unlines ls).
Proof.
  revert d c. induction ls as [|l ls IH]; intros d c Hc.
  - cbn. rewrite app_nil_r. exact Hc.
  - cbn [fold_left]. rewrite (IH _ (c ++ l ++ [LF])).
    + unfold unlines. cbn [map List.concat]. rewrite <- !app_assoc. reflexivity.
    + rewrite absorb_content, Hc. reflexivity.
Qed.

(** The title is the value of the first [T:] line. *)
Lemma fold_absorb_T (ls : list str) (d : TuneDict.t) :
  TuneDict.T (fold_left absorb ls d) =
  match TuneDict.T d with
  | Some t => Some t
  | None => option_map between_colons (first_with T_marker ls)
  end.
Proof.
  revert d. induction ls as [|l ls IH]; intros d.
  - cbn. destruct (TuneDict.T d); reflexivity.
  - cbn [fold_left]. rewrite IH, absorb_T. unfold first_with. cbn [find].
    destruct (TuneDict.T d); [reflexivity|].
    destruct (startswith l T_marker); reflexivity.
Qed.

(** The rhythm is the value of the last [R:] line. *)
Lemma fold_absorb_R (ls : list str) (d : TuneDict.t) :
  TuneDict.R (fold_left absorb ls d) =
  match last_with R_marker ls with
  | Some l => Some (between_colons l)
  | None => TuneDict.R d
  end.
Proof.
  revert d. induction ls as [|l ls IH]; intros d; [reflexivity|].
  cbn [fold_left]. rewrite IH, absorb_R. unfold last_with. cbn [rev].
  rewrite find_snoc.
  destruct (find _ (rev ls)); [reflexivity|].
  destruct (startswith l R_marker); reflexivity.
Qed.

(** The key is the value of the last [K:] line. *)
Lemma fold_absorb_K (ls : list str) (d : TuneDict.t) :
  TuneDict.K (fold_left absorb ls d) =
  match last_with K_marker ls with
  | Some l => Some (between_colons l)
  | None => TuneDict.K d
  end.
Proof.
  revert d. induction ls as [|l ls IH]; intros d; [reflexivity|].
  cbn [fold_left]. rewrite IH, absorb_K. unfold last_with. cbn [rev].
  rewrite find_snoc.
  destruct (find _ (rev ls)); [reflexivity|].
  destruct (startswith l K_marker); reflexivity.
Qed.

End Fields.

(** ** The records of an input, segment by segment *)

Section Segments.

Variables (filepath : str) (book_id : Z).

Lemma body_after (rest : list str) : rest = body_of rest ++ after_body rest.
Proof.
  induction rest as [|raw rest IH]; [reflexivity|].
  cbn. destruct (opens raw); [reflexivity|]. cbn. f_equal. exact IH.
Qed.

Lemma body_of_no_open (rest : list str) :
  Forall (fun raw => opens raw = false) (body_of rest).
Proof.
  induction rest as [|raw rest IH]; cbn; [constructor|].
  destruct (opens raw) eqn:E; constructor; assumption.
Qed.

Lemma after_body_open (rest : list str) :
  after_body rest = [] \/
  exists y rest', after_body rest = y :: rest' /\ opens y = true.
Proof.
  induction rest as [|raw rest IH]; cbn; [left; reflexivity|].
  destruct (opens raw) eqn:E; [right; exists raw, rest; auto | exact IH].
Qed.

Lemma parse_lines_drop (raw : str) (rest : list str) :
  opens raw = false ->
  parse_lines filepath (raw :: rest) book_id = parse_lines filepath rest book_id.
Proof.
  intros H. unfold parse_lines. cbn [run_loop].
  rewrite (loop_body_outside book_id initial raw H); reflexivity.
Qed.

Lemma parse_lines_after_body (rest : list str) :
  parse_lines filepath (after_body rest) book_id = parse_lines filepath rest book_id.
Proof.
  induction rest as [|raw rest IH]; [reflexivity|].
  cbn. destruct (opens raw) eqn:E; [reflexivity|].
  rewrite (parse_lines_drop raw rest E). exact IH.
Qed.

(** The parser returns one dictionary for each opening line, built from
    that line and its body. *)
Lemma parse_lines_segments (lines : list str) :
  parse_lines filepath lines book_id =
  (map (record_of book_id) (segments lines), []).
Proof.
  apply injective_projections; [|apply parse_lines_silent].
  cbn [fst snd]. induction lines as [|raw rest IH]; [reflexivity|].
  cbn [segments]. destruct (opens raw) eqn:E.
  - rewrite (body_after rest) at 1.
    pose proof (parse_lines_segment filepath book_id [] raw (body_of rest)
                  (after_body rest) E (body_of_no_open rest) (after_body_open rest)) as S.
    cbn [app] in S. rewrite S, parse_lines_after_body, IH. reflexivity.
  - rewrite (parse_lines_drop raw rest E). exact IH.
Qed.

Lemma parse_abc_file_segments (src : str) :
  parse_abc_file filepath (Readable src) book_id =
  (map (record_of book_id) (segments (readlines src)), []).
Proof. apply parse_lines_segments. Qed.

(** [segments] cuts where it should: a record standing anywhere in the
    input is one of the segments, with the lines up to the next opening
    line for its body. *)
Lemma segments_cut (before : list str) (x : str) (body after : list str) :
  opens x = true -> Forall (fun raw => opens raw = false) body ->
  (after = [] \/ exists y rest, after = y :: rest /\ opens y = true) ->
  segments (before ++ x :: body ++ after) =
  segments before ++ (x, body) :: segments after.
Proof.
  intros Hx Hbody Hafter.
  assert (B : body_of (body ++ after) = body).
  { induction Hbody as [|raw body Hraw _ IH]; cbn.
    - destruct Hafter as [-> | (y & rest & -> & Hy)]; [reflexivity|].
      cbn. rewrite Hy. reflexivity.
    - rewrite Hraw. f_equal. exact IH. }
  assert (S : segments (body ++ after) = segments after).
  { clear B. induction Hbody as [|raw body Hraw _ IH]; cbn; [reflexivity|].
    rewrite Hraw. exact IH. }
  induction before as [|raw before IH]; cbn.
  - rewrite Hx, B, S. reflexivity.
  - destruct (opens raw) eqn:E.
    + cbn. rewrite IH. f_equal. f_equal.
      clear IH. induction before as [|r2 before IH2]; cbn.
      * rewrite Hx. reflexivity.
      * destruct (opens r2); [reflexivity | f_equal; exact IH2].
    + exact IH.
Qed.

Lemma segments_in (lines : list str) (x : str) (body : list str) :
  In (x, body) (segments lines) -> In x lines /\ opens x = true.
Proof.
  induction lines as [|raw rest IH]; cbn; [tauto|].
  destruct (opens raw) eqn:E.
  - intros [H | H]; [injection H as <- _; auto | destruct (IH H); auto].
  - intros H. destruct (IH H); auto.
Qed.

Lemma segments_body_in (lines : list str) (x : str) (body : list str) :
  In (x, body) (segments lines) ->
  Forall (fun raw => In raw lines /\ opens raw = false) body.
Proof.
  assert (B : forall rest, Forall (fun raw => In raw rest /\ opens raw = false) (body_of rest)).
  { induction rest as [|raw rest IH]; cbn; [constructor|].
    destruct (opens raw) eqn:E; constructor; [auto|].
    eapply Forall_impl; [|exact IH]. cbn. intros a [Ha Hb]. auto. }
  induction lines as [|raw rest IH]; cbn; [tauto|].
  destruct (opens raw) eqn:E.
  - intros [H | H].
    + injection H as _ <-. eapply Forall_impl; [|apply B]. cbn. intros a [Ha Hb]. auto.
    + eapply Forall_impl; [|apply IH, H]. cbn. intros a [Ha Hb]. auto.
  - intros H. eapply Forall_impl; [|apply IH, H]. cbn. intros a [Ha Hb]. auto.
Qed.

End Segments.

(** ** The parser on concrete and on arbitrary inputs *)

Lemma record_of_content (book_id : Z) (x : str) (body : list str) :
  opens x = true ->
  TuneDict.content (record_of book_id (x, body)) =
  Some (unlines (kept (x :: body))).
Proof.
  intros Hx. unfold record_of. cbn [fst snd].
  rewrite (fold_absorb_content _ _ (strip x ++ [LF])); [|reflexivity].
  unfold kept at 2. cbn [filter]. rewrite (opens_not_blank x Hx). reflexivity.
Qed.

Lemma contents_of_segments (filepath : str) (book_id : Z) (src : str) :
  map TuneDict.content (fst (parse_abc_file filepath (Readable src) book_id)) =
  map (fun seg => Some (unlines (kept (fst seg :: snd seg))))
      (segments (readlines src)).
Proof.
  rewrite parse_abc_file_segments. cbn [fst]. rewrite map_map.
  apply map_ext_in. intros [x body] Hin. cbn [fst snd].
  destruct (segments_in _ _ _ Hin) as [_ Hx].
  apply (record_of_content book_id x body Hx).
Qed.

Lemma blank_strip (raw : str) : blank (strip raw) = blank raw.
Proof. unfold blank. rewrite strip_idem. reflexivity. Qed.

Lemma loop_body_strip (book_id : Z) (st : state) (raw : str) :
  loop_body book_id st (strip raw) = loop_body book_id st raw.
Proof. unfold loop_body. rewrite strip_idem. reflexivity. Qed.

Lemma run_loop_strip (book_id : Z) (st : state) (lines : list str) :
  run_loop book_id st (map strip lines) = run_loop book_id st lines.
Proof.
  revert st. induction lines as [|raw lines IH]; intros st; [reflexivity|].
  cbn [map run_loop]. rewrite loop_body_strip.
  destruct (loop_body book_id st raw); [apply IH | reflexivity].
Qed.

(** The lines kept for a record are not blank and hold no newline, when
    the lines come from [readlines]. *)
Lemma kept_lines (lines : list str) :
  Forall (fun raw => ~ In LF (strip raw)) lines ->
  Forall (fun l => blank l = false /\ ~ In LF l) (kept lines).
Proof.
  induction 1 as [|raw lines Hraw _ IH]; [constructor|].
  unfold kept. cbn [filter]. destruct (blank raw) eqn:Hb; cbn [negb map]; [exact IH|].
  constructor; [|exact IH]. rewrite blank_strip. auto.
Qed.

Lemma blank_terminated (l : str) : blank (l ++ [LF]) = blank l.
Proof. unfold blank. rewrite strip_snoc_space by reflexivity. reflexivity. Qed.

(** C1.  The two-tune text of the concrete scenario, parsed with book 0,
    gives exactly two records: 101, The Test Reel, Reel, D and 102, The
    Quick Jig, Jig, G, each with its five lines for content; nothing is
    printed.  The text as it is indented in the document gives the same
    two records. *)
Theorem section8_two_records (filepath : str) :
  parse_abc_file filepath (Readable section8_text) 0 = ([tune_101; tune_102], []) /\
  parse_abc_file filepath (Readable section8_indented) 0 = ([tune_101; tune_102], []).
Proof. split; vm_compute; reflexivity. Qed.

(** C2.  On a header line with two colons the stored value stops at the
    second colon: the reference number of [X:12:a] is [12], the title of
    [T:Hornpipe: first setting] is [Hornpipe], the rhythm of [R:reel:slow]
    is [reel] and the key of [K:D:mix] is [D], where the text after the
    first colon is longer. *)
Theorem value_stops_at_second_colon (filepath : str) :
  exists r,
    fst (parse_abc_file filepath
           (Readable (text ["X:12:a"; "T:Hornpipe: first setting";
                            "R:reel:slow"; "K:D:mix"]%string)) 3) = [r] /\
    TuneDict.X r = Some (lit "12") /\
    TuneDict.T r = Some (lit "Hornpipe") /\
    TuneDict.R r = Some (lit "reel") /\
    TuneDict.K r = Some (lit "D") /\
    after_colon (lit "X:12:a") = lit "12:a" /\
    after_colon (lit "T:Hornpipe: first setting") = lit "Hornpipe: first setting" /\
    after_colon (lit "R:reel:slow") = lit "reel:slow" /\
    after_colon (lit "K:D:mix") = lit "D:mix".
Proof.
  eexists. split; [vm_compute; reflexivity|].
  repeat split; vm_compute; reflexivity.
Qed.

(** C3, as stated, fails: a body line with spaces around it is not kept as
    it stands.  For the text [X:1], [  A2 B2  ] the content is
    [X:1], [A2 B2]. *)
Lemma content_not_verbatim :
  let t := text ["X:1"; "  A2 B2  "]%string in
  map TuneDict.content (fst (parse_abc_file [] (Readable t) 0)) =
    [Some (text ["X:1"; "A2 B2"]%string)] /\
  map TuneDict.content (fst (parse_abc_file [] (Readable t) 0)) <>
  map (fun seg => Some (verbatim (fst seg :: snd seg))) (segments (readlines t)).
Proof.
  split; [vm_compute; reflexivity|].
  vm_compute. intros H. discriminate H.
Qed.

(** C3, amended.  The contents of the records are, record by record, the
    non-blank lines of the record (the opening line, then every line up to
    the next opening line or the end of the input) in their order, each
    stripped of the whitespace around it and followed by one newline. *)
Theorem content_is_stripped_lines (filepath : str) (book_id : Z) (src : str) :
  map TuneDict.content (fst (parse_abc_file filepath (Readable src) book_id)) =
  map (fun seg => Some (unlines (kept (fst seg :: snd seg))))
      (segments (readlines src)).
Proof. apply contents_of_segments. Qed.

(** C4.  Record by record, the title is the value of the first [T:] line of
    the body, the rhythm the value of the last [R:] line and the key the
    value of the last [K:] line (and the field is absent when there is no
    such line): of two titles A then B the record keeps A, of two keys or
    rhythms D then G it keeps G. *)
Theorem title_first_rhythm_key_last (filepath : str) (book_id : Z) (src : str) :
  let recs := fst (parse_abc_file filepath (Readable src) book_id) in
  let segs := segments (readlines src) in
  map TuneDict.T recs =
    map (fun seg => option_map between_colons (first_with T_marker (kept (snd seg)))) segs /\
  map TuneDict.R recs =
    map (fun seg => option_map between_colons (last_with R_marker (kept (snd seg)))) segs /\
  map TuneDict.K recs =
    map (fun seg => option_map between_colons (last_with K_marker (kept (snd seg)))) segs.
Proof.
  cbv zeta. rewrite parse_abc_file_segments. cbn [fst]. rewrite !map_map.
  repeat split; apply map_ext; intros [x body]; unfold record_of; cbn [fst snd].
  - rewrite fold_absorb_T. reflexivity.
  - rewrite fold_absorb_R. cbn. destruct (last_with R_marker (kept body)); reflexivity.
  - rewrite fold_absorb_K. cbn. destruct (last_with K_marker (kept body)); reflexivity.
Qed.

(** The two-title, two-key, two-rhythm record of the specification. *)
Example first_title_last_key :
  map (fun r => (TuneDict.T r, TuneDict.R r, TuneDict.K r))
      (fst (parse_abc_file [] (Readable (text
         ["X:1"; "T:A"; "K:D"; "R:D"; "T:B"; "K:G"; "R:G"]%string)) 0)) =
  [(Some (lit "A"), Some (lit "G"), Some (lit "G"))].
Proof. vm_compute. reflexivity. Qed.

(** ** The filters *)

Section Filters.

Lemma compile_plain (pat : str) :
  plain pat = true -> Re.compile pat = Some (map Re.Lit pat).
Proof.
  induction pat as [|c pat IH]; [reflexivity|].
  cbn [plain forallb]. intros H.
  apply andb_true_iff in H as [Hc Hp]. apply andb_true_iff in Hc as [Ha Hs].
  cbn [Re.compile map]. rewrite Ha. cbn [negb].
  destruct (c =? 46)%N eqn:E.
  { apply N.eqb_eq in E. subst c. discriminate Hs. }
  apply negb_true_iff in Hs. rewrite Hs, (IH Hp). reflexivity.
Qed.

Lemma match_here_plain (pat s : str) :
  Re.match_here (map Re.Lit pat) s = startswith (map Re.lower s) (map Re.lower pat).
Proof.
  revert s. induction pat as [|c pat IH]; intros s; [destruct s; reflexivity|].
  destruct s as [|x s]; [reflexivity|].
  cbn [map Re.match_here startswith Re.atom_matches].
  rewrite IH, (N.eqb_sym (Re.lower c)). reflexivity.
Qed.

Lemma search_plain (pat s : str) :
  Re.search (map Re.Lit pat) s = icontains s pat.
Proof.
  induction s as [|x s IH]; cbn [Re.search icontains];
    rewrite match_here_plain; [reflexivity|].
  rewrite IH. reflexivity.
Qed.

Lemma select_plain (pat : str) (col : TuneRow.t -> option str) (df : DataFrame) :
  plain pat = true -> forallb (fun r => ascii_cell (col r)) df = true ->
  select (fun r => str_contains pat (col r)) df =
  Some (filter (fun r => match col r with
                         | Some s => icontains s pat
                         | None => false
                         end) df).
Proof.
  intros Hp. induction df as [|r df IH]; [reflexivity|].
  cbn [forallb select filter]. intros H. apply andb_true_iff in H as [Hr Hdf].
  rewrite (IH Hdf). unfold str_contains. rewrite (compile_plain pat Hp).
  destruct (col r) as [s|]; [|reflexivity].
  cbn [ascii_cell] in Hr. rewrite Hr, search_plain.
  destruct (icontains s pat); reflexivity.
Qed.

(** For a search term without special characters, on ASCII cells, the two
    filters are the substring filters of the specification. *)
Lemma filters_agree_on_plain_terms (df : DataFrame) (term : str) :
  plain term = true ->
  (forallb (fun r => ascii_cell (TuneRow.rhythm r)) df = true ->
   get_tunes_by_rhythm df term = Some (filter (rhythm_icontains term) df)) /\
  (forallb (fun r => ascii_cell (TuneRow.title r)) df = true ->
   search_tunes df term = Some (filter (title_icontains term) df)).
Proof.
  intros Hp. unfold get_tunes_by_rhythm, search_tunes.
  rewrite (compile_plain term Hp).
  split; intros H; apply (select_plain term _ df Hp H).
Qed.

End Filters.

(** C5.  A search term is read as a regular expression.  On the two rows
    with rhythms Reel and Jig, the term [.] selects both rows and the term
    [r..l] selects the Reel, though neither rhythm contains a dot; the
    title search for [Q...k ] selects The Quick Jig.  The substring filters
    select no row for any of the three. *)
Theorem search_term_is_a_pattern :
  get_tunes_by_rhythm jig_and_reel (lit ".") = Some jig_and_reel /\
  filter (rhythm_icontains (lit ".")) jig_and_reel = [] /\
  option_map (map TuneRow.id) (get_tunes_by_rhythm jig_and_reel (lit "r..l")) = Some [1%Z] /\
  filter (rhythm_icontains (lit "r..l")) jig_and_reel = [] /\
  option_map (map TuneRow.id) (search_tunes jig_and_reel (lit "Q...k ")) = Some [2%Z] /\
  filter (title_icontains (lit "Q...k ")) jig_and_reel = [].
Proof. repeat split; vm_compute; reflexivity. Qed.

(** The filter of the specification's own example: the term [jig] selects
    the Jig and leaves the Reel out. *)
Example jig_selects_the_jig :
  option_map (map TuneRow.id) (get_tunes_by_rhythm jig_and_reel (lit "jig")) = Some [2%Z].
Proof. vm_compute. reflexivity. Qed.

(** ** The store *)

Section Store.

Lemma max_rowid_snoc (l : list TuneRow.t) (r : TuneRow.t) :
  (0 <= TuneRow.id r)%Z ->
  max_rowid (l ++ [r]) = Z.max (max_rowid l) (TuneRow.id r).
Proof.
  intros Hr. induction l as [|a l IH]; cbn.
  - lia.
  - fold (max_rowid (l ++ [r])). fold (max_rowid l). rewrite IH. lia.
Qed.

Lemma insert_tune_row (tbl : tunes_table) (t : TuneDict.t) :
  counted tbl -> storable t ->
  insert_tune (Some tbl) t =
  Ok (Some (mk_table (rows tbl ++ [row_of (sqlite_sequence tbl + 1) t])
                     (sqlite_sequence tbl + 1))).
Proof.
  intros Hc Hs. unfold insert_tune, bind_int, storable in *.
  replace (Z.max (sqlite_sequence tbl) (max_rowid (rows tbl)))
    with (sqlite_sequence tbl) by (unfold counted in Hc; lia).
  destruct (TuneDict.book_id t) as [z|] eqn:E.
  - rewrite Hs. cbn [bind]. unfold row_of. rewrite E. reflexivity.
  - cbn [bind]. unfold row_of. rewrite E. reflexivity.
Qed.

Lemma insert_tune_storable (tbl : tunes_table) (t : TuneDict.t) (db : database) :
  insert_tune (Some tbl) t = Ok db -> storable t.
Proof.
  unfold insert_tune, bind_int, storable.
  destruct (TuneDict.book_id t) as [z|]; [|trivial].
  destruct (fits_int64 z); [reflexivity | discriminate].
Qed.

Lemma counted_insert (tbl : tunes_table) (t : TuneDict.t) :
  counted tbl ->
  counted (mk_table (rows tbl ++ [row_of (sqlite_sequence tbl + 1) t])
                    (sqlite_sequence tbl + 1)).
Proof.
  unfold counted. cbn [rows sqlite_sequence]. intros H.
  rewrite max_rowid_snoc; cbn [row_of TuneRow.id]; lia.
Qed.

(** Inserting a list of storable dictionaries appends their rows, numbered
    from the counter on. *)
Lemma insert_tunes_rows (ts : list TuneDict.t) (tbl : tunes_table) :
  counted tbl -> Forall storable ts ->
  insert_tunes ts (Some tbl) =
  (Some (mk_table (rows tbl ++ rows_from (sqlite_sequence tbl + 1) ts)
                  (sqlite_sequence tbl + Z.of_nat (List.length ts))), Ok tt).
Proof.
  intros Hc H. revert tbl Hc. induction H as [|t ts Ht _ IH]; intros tbl Hc.
  - cbn. rewrite app_nil_r, Z.add_0_r. destruct tbl; reflexivity.
  - cbn [insert_tunes]. rewrite (insert_tune_row tbl t Hc Ht).
    rewrite (IH _ (counted_insert tbl t Hc)). cbn [rows sqlite_sequence rows_from].
    rewrite <- app_assoc. cbn [app List.length].
    do 3 f_equal. lia.
Qed.

(** If every insert went through, every dictionary was storable. *)
Lemma insert_tunes_storable (ts : list TuneDict.t) (tbl : tunes_table) (db : database) :
  counted tbl -> insert_tunes ts (Some tbl) = (db, Ok tt) -> Forall storable ts.
Proof.
  revert tbl. induction ts as [|t ts IH]; intros tbl Hc H; [constructor|].
  cbn [insert_tunes] in H.
  destruct (insert_tune (Some tbl) t) as [db1|e] eqn:E; [|discriminate].
  pose proof (insert_tune_storable tbl t db1 E) as Ht.
  rewrite (insert_tune_row tbl t Hc Ht) in E. injection E as <-.
  constructor; [exact Ht|]. apply (IH _ (counted_insert tbl t Hc) H).
Qed.

Lemma rows_from_length (ts : list TuneDict.t) (start : Z) :
  List.length (rows_from start ts) = List.length ts.
Proof.
  revert start. induction ts as [|t ts IH]; intros start; [reflexivity|].
  cbn. f_equal. apply IH.
Qed.

Lemma rows_from_ids (ts : list TuneDict.t) (start : nat) :
  map TuneRow.id (rows_from (Z.of_nat start) ts) =
  map Z.of_nat (seq start (List.length ts)).
Proof.
  revert start. induction ts as [|t ts IH]; intros start; [reflexivity|].
  cbn [rows_from map List.length seq row_of TuneRow.id]. f_equal.
  rewrite <- IH. do 2 f_equal. lia.
Qed.

Lemma rows_from_map (ts : list TuneDict.t) (start : Z) :
  map (fun r => (TuneRow.book_id r, TuneRow.reference_number r, TuneRow.title r,
                 TuneRow.rhythm r, TuneRow.key_sig r, TuneRow.content r))
      (rows_from start ts) =
  map (fun t => (TuneDict.book_id t, TuneDict.X t,
                 Some (get (TuneDict.T t) Unknown),
                 Some (get (TuneDict.R t) Unknown),
                 Some (get (TuneDict.K t) Unknown),
                 Some (get (TuneDict.content t) []))) ts.
Proof.
  revert start. induction ts as [|t ts IH]; intros start; [reflexivity|].
  cbn [rows_from map]. rewrite IH. reflexivity.
Qed.

End Store.

(** Every dictionary the parser returns has its book number, its reference
    number and its content. *)
Lemma parsed_record_keys (filepath : str) (file : source_text) (book_id : Z)
    (t : TuneDict.t) :
  In t (fst (parse_abc_file filepath file book_id)) ->
  TuneDict.book_id t = Some book_id /\
  TuneDict.X t <> None /\ TuneDict.content t <> None.
Proof.
  destruct file as [src|e]; [|intros []].
  rewrite parse_abc_file_segments. cbn [fst]. intros H.
  apply in_map_iff in H as ([x body] & <- & _). unfold record_of. cbn [fst snd].
  rewrite fold_absorb_book_id, fold_absorb_X.
  rewrite (fold_absorb_content _ _ (strip x ++ [LF])); [|reflexivity].
  cbn. repeat split; discriminate.
Qed.

(** C6, as stated, fails: a record parsed under a book number that does
    not fit 64 bits is refused by the store.  The one record of [X:1],
    [T:A] under book 2^63 makes [insert_tune] raise OverflowError, and
    [load_data] then gives no row where the claim has one. *)
Lemma record_of_huge_book_is_not_stored :
  let ts := fst (parse_abc_file [] (Readable (text ["X:1"; "T:A"]%string)) (2 ^ 63)) in
  Forall parsed_record ts /\
  List.length ts = 1 /\
  insert_tunes ts (TuneDatabase new_file) = (TuneDatabase new_file, Raise OverflowError) /\
  load_data (fst (insert_tunes ts (TuneDatabase new_file))) = Ok [].
Proof.
  cbv zeta. split; [|split; [|split]].
  - apply Forall_forall. intros t Ht.
    exists [], (text ["X:1"; "T:A"]%string), (2 ^ 63)%Z. split; [reflexivity | exact Ht].
  - reflexivity.
  - reflexivity.
  - reflexivity.
Qed.

Lemma stored_row_columns (t : TuneDict.t) (id : Z) :
  TuneDict.content t <> None -> stored_columns (row_of id t) = expected_columns t.
Proof.
  intros Hc. unfold stored_columns, expected_columns, row_of, or_unknown.
  cbn [TuneRow.book_id TuneRow.reference_number TuneRow.title TuneRow.rhythm
       TuneRow.key_sig TuneRow.content].
  destruct (TuneDict.content t) as [c|]; [|congruence].
  destruct (TuneDict.T t), (TuneDict.R t), (TuneDict.K t); reflexivity.
Qed.

Lemma parsed_record_stored_row (t : TuneDict.t) (id : Z) :
  parsed_record t -> stored_columns (row_of id t) = expected_columns t.
Proof.
  intros (filepath & src & b & _ & Hin).
  destruct (parsed_record_keys _ _ _ _ Hin) as (_ & _ & Hc).
  apply stored_row_columns, Hc.
Qed.

Lemma rows_from_stored (ts : list TuneDict.t) (start : Z) :
  Forall parsed_record ts ->
  map stored_columns (rows_from start ts) = map expected_columns ts.
Proof.
  intros H. revert start. induction H as [|t ts Ht _ IH]; intros start; [reflexivity|].
  cbn [rows_from map]. rewrite IH, (parsed_record_stored_row t start Ht). reflexivity.
Qed.

(** C6, amended.  Parsed records whose book numbers fit SQLite's 64-bit
    integers, fewer than 2^63 of them, can all be inserted in order into a
    database that has just been created, and [load_data] then returns as
    many rows, in the order of insertion, numbered from 1, each with the
    book number, reference number and content of its record and with its
    title, rhythm and key, or the text Unknown for those the record lacks. *)
Theorem stored_records_load_back (ts : list TuneDict.t) :
  Forall parsed_record ts ->
  Forall storable ts ->
  (Z.of_nat (List.length ts) < 2 ^ 63)%Z ->
  exists db df,
    insert_tunes ts (TuneDatabase new_file) = (db, Ok tt) /\
    load_data db = Ok df /\
    List.length df = List.length ts /\
    map TuneRow.id df = map Z.of_nat (seq 1 (List.length ts)) /\
    map stored_columns df = map expected_columns ts.
Proof.
  intros Hp Hs _.
  assert (C : counted (mk_table [] 0)) by (unfold counted; cbn; lia).
  change (TuneDatabase new_file) with (Some (mk_table [] 0)).
  rewrite (insert_tunes_rows ts _ C Hs). cbn [rows sqlite_sequence app].
  eexists. eexists. split; [reflexivity|]. cbn [load_data rows].
  split; [reflexivity|]. split; [apply rows_from_length|].
  split; [apply (rows_from_ids ts 1) | apply (rows_from_stored ts _ Hp)].
Qed.

Lemma stored_records_load_back_witness :
  exists db df,
    insert_tunes [bare_tune; named_tune] (TuneDatabase new_file) = (db, Ok tt) /\
    load_data db = Ok df /\
    List.length df = 2%nat /\
    map TuneRow.id df = [1%Z; 2%Z] /\
    map stored_columns df =
      [ (Some 5%Z, Some (lit "1"), Some (lit "Unknown"), Some (lit "Unknown"),
         Some (lit "Unknown"), Some (text ["X:1"; "ABC|"]%string));
        (Some 5%Z, Some (lit "2"), Some (lit "Named"), Some (lit "Unknown"),
         Some (lit "G"), Some (text ["X:2"; "T:Named"; "K:G"]%string)) ].
Proof.
  apply (stored_records_load_back [bare_tune; named_tune]).
  - assert (P : fst (parse_abc_file [] (Readable bare_and_named) 5) =
                [bare_tune; named_tune]) by (vm_compute; reflexivity).
    apply Forall_forall. intros t Ht. exists [], bare_and_named, 5%Z.
    split; [vm_compute; reflexivity | rewrite P; exact Ht].
  - repeat constructor.
  - cbn. lia.
Defined.

(** A book number beyond 64 bits is refused by the store, and the run
    stops there. *)
Example book_number_too_large :
  insert_tune (TuneDatabase new_file)
    (TuneDict.mk (Some (2 ^ 63)%Z) (Some (lit "X:1")) (Some (lit "1")) None None None)
  = Raise OverflowError.
Proof. reflexivity. Qed.

(** ** The ingestion run *)

Section Ingestion.

(** What was printed before does not steer the run: it is only added to. *)
Lemma process_loop_printed (files : list abc_file) (total : nat) (db : database)
    (printed : list message) :
  process_loop files total db printed =
  let '(db', said, r) := process_loop files total db [] in
  (db', printed ++ said, r).
Proof.
  revert total db printed. induction files as [|f files IH]; intros total db printed.
  - cbn. rewrite app_nil_r. reflexivity.
  - cbn [process_loop]. destruct (book_number f) as [b|].
    + destruct (parse_abc_file (file_path f) (file f) b) as [found said].
      destruct (insert_tunes found db) as [db' [[]|e]]; [|reflexivity].
      rewrite (IH _ _ (printed ++ _)), (IH _ _ ([] ++ _)).
      destruct (process_loop files _ db' []) as [[d s] r].
      cbn [app]. rewrite <- !app_assoc. reflexivity.
    + rewrite (IH _ _ (printed ++ _)), (IH _ _ ([] ++ _)).
      destruct (process_loop files total db []) as [[d s] r].
      cbn [app]. rewrite <- !app_assoc. reflexivity.
Qed.

Lemma process_loop_app (l1 l2 : list abc_file) (total : nat) (db : database)
    (printed : list message) :
  process_loop (l1 ++ l2) total db printed =
  match process_loop l1 total db printed with
  | (db', said, Ok total') => process_loop l2 total' db' said
  | (db', said, Raise e) => (db', said, Raise e)
  end.
Proof.
  revert total db printed. induction l1 as [|f l1 IH]; intros total db printed.
  - reflexivity.
  - cbn [app process_loop]. destruct (book_number f) as [b|]; [|apply IH].
    destruct (parse_abc_file (file_path f) (file f) b) as [found said].
    destruct (insert_tunes found db) as [db' [[]|e]]; [apply IH | reflexivity].
Qed.

(** A file that cannot be read costs the loop two printed lines and
    nothing else. *)
Lemma process_loop_unreadable (f : abc_file) (rest : list abc_file) (total : nat)
    (db : database) (printed : list message) (e : exn) (b : Z) :
  file f = Unreadable e -> book_number f = Some b ->
  process_loop (f :: rest) total db printed =
  process_loop rest total db
    (printed ++ [ErrorReading (file_path f) (exn_str e); Processed b (name f) 0]).
Proof.
  intros Hf Hb. cbn [process_loop]. rewrite Hb, Hf.
  cbn [parse_abc_file insert_tunes List.length app]. rewrite Nat.add_0_r. reflexivity.
Qed.

End Ingestion.

(** C9.  A source that cannot be read or decoded makes the parser print
    one line naming the path with the error, and return no record instead
    of raising.  In the run over the files the loop goes on to the files
    that remain with the same total and the same database, two lines
    printed; the database and the total at the end of the run are those of
    the run without that file. *)
Theorem unreadable_source_is_skipped (e : exn) (b : Z) :
  (forall filepath,
     parse_abc_file filepath (Unreadable e) b =
     ([], [ErrorReading filepath (exn_str e)])) /\
  (forall f rest total db printed,
     file f = Unreadable e -> book_number f = Some b ->
     process_loop (f :: rest) total db printed =
     process_loop rest total db
       (printed ++ [ErrorReading (file_path f) (exn_str e);
                    Processed b (name f) 0])) /\
  (forall f before after db,
     file f = Unreadable e -> book_number f = Some b ->
     fst (fst (process_directory (before ++ f :: after) db)) =
       fst (fst (process_directory (before ++ after) db)) /\
     snd (process_directory (before ++ f :: after) db) =
       snd (process_directory (before ++ after) db)).
Proof.
  split; [reflexivity|]. split.
  - intros f rest total db printed Hf Hb.
    apply (process_loop_unreadable f rest total db printed e b Hf Hb).
  - intros f before after db Hf Hb. unfold process_directory.
    rewrite !process_loop_app.
    destruct (process_loop before 0 db []) as [[db1 said] [total|e1]];
      [|split; reflexivity].
    rewrite (process_loop_unreadable f after total db1 said e b Hf Hb).
    rewrite (process_loop_printed after total db1 (said ++ _)).
    rewrite (process_loop_printed after total db1 said).
    destruct (process_loop after total db1 []) as [[d s] r]. split; reflexivity.
Qed.

Lemma unreadable_source_is_skipped_witness :
  process_loop [broken_file; sample_file] 0 (TuneDatabase new_file) [] =
    process_loop [sample_file] 0 (TuneDatabase new_file)
      ([] ++ [ErrorReading (file_path broken_file)
                (exn_str (ReadError (lit
                   "'utf-8' codec can't decode byte 0xff in position 0: invalid start byte")));
              Processed 1 (name broken_file) 0]) /\
  fst (fst (process_directory ([sample_file] ++ broken_file :: [sample_file])
              (TuneDatabase new_file))) =
    fst (fst (process_directory ([sample_file] ++ [sample_file]) (TuneDatabase new_file))) /\
  snd (process_directory ([sample_file] ++ broken_file :: [sample_file])
         (TuneDatabase new_file)) =
    snd (process_directory ([sample_file] ++ [sample_file]) (TuneDatabase new_file)).
Proof.
  destruct (unreadable_source_is_skipped
              (ReadError (lit
                 "'utf-8' codec can't decode byte 0xff in position 0: invalid start byte"))
              1) as (_ & H2 & H3).
  split.
  - apply (H2 broken_file); reflexivity.
  - apply (H3 broken_file); reflexivity.
Defined.

(** The run over the sample file, the broken file and the sample file
    again: four tunes, four rows, and the lines printed. *)
Example run_with_a_broken_file :
  let '(db, printed, total) :=
    process_directory [sample_file; broken_file; sample_file] (TuneDatabase new_file) in
  total = Ok 4%nat /\
  option_map (map TuneRow.id) (option_map rows db) = Some [1; 2; 3; 4]%Z /\
  printed =
    [ Processed 0 (lit "sample0.abc") 2;
      ErrorReading (lit "abc_books/1/broken.abc")
        (lit "'utf-8' codec can't decode byte 0xff in position 0: invalid start byte");
      Processed 1 (lit "broken.abc") 0;
      Processed 0 (lit "sample0.abc") 2 ].
Proof. vm_compute. repeat split. Qed.

(** ** Blank lines, lines before the first record, stripping *)

Section Lines.

Variables (filepath : str) (book_id : Z).

Lemma parse_lines_skip_blank (lines : list str) :
  parse_lines filepath (filter (fun raw => negb (blank raw)) lines) book_id =
  parse_lines filepath lines book_id.
Proof. unfold parse_lines. rewrite run_loop_skip_blank. reflexivity. Qed.

Lemma filter_blanks (blanks : list str) :
  Forall (fun raw => blank raw = true) blanks ->
  filter (fun raw => negb (blank raw)) blanks = [].
Proof.
  induction 1 as [|raw blanks Hraw _ IH]; [reflexivity|].
  cbn [filter]. rewrite Hraw. exact IH.
Qed.

Lemma parse_lines_drop_all (before rest : list str) :
  Forall (fun raw => opens raw = false) before ->
  parse_lines filepath (before ++ rest) book_id = parse_lines filepath rest book_id.
Proof.
  induction 1 as [|raw before Hraw _ IH]; [reflexivity|].
  cbn [app]. rewrite (parse_lines_drop filepath book_id raw _ Hraw). exact IH.
Qed.

Lemma segments_length (lines : list str) :
  List.length (segments lines) = List.length (filter opens lines).
Proof.
  induction lines as [|raw rest IH]; [reflexivity|].
  cbn [segments filter]. destruct (opens raw); cbn [List.length]; rewrite IH; reflexivity.
Qed.

(** A line that starts with a marker is neither blank nor, unless the
    marker is [X:], an opening line. *)
Lemma marker_line (raw : str) (a : char) :
  startswith (strip raw) [a; COLON] = true ->
  blank raw = false /\ (a <> 88%N -> opens raw = false).
Proof.
  intros H. split.
  - unfold blank. destruct (strip raw); [discriminate H | reflexivity].
  - intros Ha. apply (markers_apart (strip raw) a 88%N Ha H).
Qed.

Lemma loop_body_field (st : state) (raw : str) (a : char) :
  a <> 88%N -> startswith (strip raw) [a; COLON] = true ->
  in_tune st = true -> TuneDict.content (current_tune st) <> None ->
  loop_body book_id st raw =
  Next (mk_state (tunes st) (absorb (current_tune st) (strip raw)) true).
Proof.
  intros Ha H Hin Hc. destruct (marker_line raw a H) as [Hb Ho].
  apply loop_body_absorb; auto.
Qed.

End Lines.

(** C7.  A blank line leaves every local of the loop as it is: it closes
    no record, opens none and adds nothing to one.  Blank lines put
    anywhere between the lines of an input change nothing in what is
    returned, two texts with the same non-blank lines give the same
    records, and so do a text and the text with a line of whitespace put in
    where a line starts.  Cut at its newlines, the content of a record has
    no blank line. *)
Theorem blank_lines_are_discarded (filepath : str) (book_id : Z) :
  (forall st raw, blank raw = true -> loop_body book_id st raw = Next st) /\
  (forall l1 blanks l2,
     Forall (fun raw => blank raw = true) blanks ->
     parse_lines filepath (l1 ++ blanks ++ l2) book_id =
     parse_lines filepath (l1 ++ l2) book_id) /\
  (forall src src',
     filter (fun raw => negb (blank raw)) (readlines src) =
     filter (fun raw => negb (blank raw)) (readlines src') ->
     parse_abc_file filepath (Readable src) book_id =
     parse_abc_file filepath (Readable src') book_id) /\
  (forall p w b,
     p = [] \/ (exists a, p = a ++ [LF]) ->
     forallb is_space w = true -> ~ In LF w -> ~ In CR w ->
     parse_abc_file filepath (Readable (p ++ w ++ LF :: b)) book_id =
     parse_abc_file filepath (Readable (p ++ b)) book_id) /\
  (forall src r c,
     In r (fst (parse_abc_file filepath (Readable src) book_id)) ->
     TuneDict.content r = Some c ->
     Forall (fun l => blank l = false) (keepends c)).
Proof.
  assert (I : forall l1 blanks l2,
             Forall (fun raw => blank raw = true) blanks ->
             parse_lines filepath (l1 ++ blanks ++ l2) book_id =
             parse_lines filepath (l1 ++ l2) book_id).
  { intros l1 blanks l2 H.
    rewrite <- (parse_lines_skip_blank filepath book_id (l1 ++ blanks ++ l2)).
    rewrite <- (parse_lines_skip_blank filepath book_id (l1 ++ l2)).
    rewrite !filter_app, (filter_blanks blanks H). reflexivity. }
  split; [|split; [|split; [|split]]].
  - intros st raw H. apply (loop_body_blank book_id st raw H).
  - exact I.
  - intros src src' H. cbn [parse_abc_file].
    rewrite <- (parse_lines_skip_blank filepath book_id (readlines src)), H.
    apply parse_lines_skip_blank.
  - intros p w b Hp Hw Hl Hc. cbn [parse_abc_file].
    destruct (readlines_insert_line p w b Hp Hl Hc) as [-> ->].
    apply I. constructor; [|constructor].
    unfold blank. rewrite strip_snoc_space by reflexivity.
    rewrite (strip_all_space w Hw). reflexivity.
  - intros src r c Hr Hc. rewrite parse_abc_file_segments in Hr. cbn [fst] in Hr.
    apply in_map_iff in Hr as ([x body] & <- & Hin).
    destruct (segments_in _ _ _ Hin) as [Hx Ho].
    rewrite (record_of_content book_id x body Ho) in Hc. injection Hc as <-.
    assert (K : Forall (fun l => blank l = false /\ ~ In LF l) (kept (x :: body))).
    { apply kept_lines. pose proof (readlines_strip_no_LF src) as R.
      rewrite Forall_forall in R. constructor; [apply R, Hx|].
      eapply Forall_impl; [|apply (segments_body_in _ _ _ Hin)].
      cbn. intros raw [Hraw _]. apply R, Hraw. }
    rewrite keepends_unlines by (eapply Forall_impl; [|exact K]; cbn; tauto).
    apply Forall_map. eapply Forall_impl; [|exact K].
    cbn. intros l [Hl _]. rewrite blank_terminated. exact Hl.
Qed.

Lemma blank_lines_are_discarded_witness :
  loop_body 0 initial (lit "   ") = Next initial /\
  parse_lines [] ([lit "X:1"] ++ [lit ""; lit "  "] ++ [lit "T:A"]) 0 =
    parse_lines [] ([lit "X:1"] ++ [lit "T:A"]) 0 /\
  parse_abc_file [] (Readable (text ["X:1"; ""; "T:A"; "   "; "K:D"]%string)) 0 =
    parse_abc_file [] (Readable (text ["X:1"; "T:A"; "K:D"]%string)) 0 /\
  parse_abc_file [] (Readable (text ["X:1"]%string ++ lit "  " ++ LF :: text ["T:A"]%string)) 0 =
    parse_abc_file [] (Readable (text ["X:1"]%string ++ text ["T:A"]%string)) 0 /\
  Forall (fun l => blank l = false)
    (keepends (text ["X:1"; "T:A"; "K:D"]%string)).
Proof.
  destruct (blank_lines_are_discarded [] 0) as (H1 & H2 & H3 & H4 & H5).
  split; [|split; [|split; [|split]]].
  - apply H1. reflexivity.
  - apply H2. repeat constructor.
  - apply H3. reflexivity.
  - apply H4.
    + right. exists (lit "X:1"). reflexivity.
    + reflexivity.
    + cbn. intros [H | [H | []]]; discriminate H.
    + cbn. intros [H | [H | []]]; discriminate H.
  - apply (H5 (text ["X:1"; ""; "T:A"; "   "; "K:D"]%string)
              (TuneDict.mk (Some 0%Z) (Some (text ["X:1"; "T:A"; "K:D"]%string))
                 (Some (lit "1")) (Some (lit "A")) None (Some (lit "D")))).
    + left. reflexivity.
    + reflexivity.
Defined.

(** C8.  A text with no opening line gives no record.  The lines before
    the first opening line are dropped: the text parses as it does without
    them.  There are as many records as opening lines, and every record has
    one: its reference number is taken from it and its content starts with
    it. *)
Theorem no_record_without_opening_line (filepath : str) (book_id : Z) :
  (forall src,
     Forall (fun raw => opens raw = false) (readlines src) ->
     parse_abc_file filepath (Readable src) book_id = ([], [])) /\
  (forall before rest,
     Forall (fun raw => opens raw = false) before ->
     parse_lines filepath (before ++ rest) book_id =
     parse_lines filepath rest book_id) /\
  (forall src,
     List.length (fst (parse_abc_file filepath (Readable src) book_id)) =
     List.length (filter opens (readlines src))) /\
  (forall src r,
     In r (fst (parse_abc_file filepath (Readable src) book_id)) ->
     exists x more,
       In x (readlines src) /\ opens x = true /\
       TuneDict.X r = Some (between_colons (strip x)) /\
       TuneDict.content r = Some (strip x ++ [LF] ++ more)).
Proof.
  split; [|split; [|split]].
  - intros src H. apply (parse_lines_no_open filepath book_id _ H).
  - intros before rest H. apply (parse_lines_drop_all filepath book_id before rest H).
  - intros src. rewrite parse_abc_file_segments. cbn [fst].
    rewrite length_map. apply segments_length.
  - intros src r Hr. rewrite parse_abc_file_segments in Hr. cbn [fst] in Hr.
    apply in_map_iff in Hr as ([x body] & <- & Hin).
    destruct (segments_in _ _ _ Hin) as [Hx Ho].
    exists x, (unlines (kept body)). repeat split; try assumption.
    + unfold record_of. cbn [fst snd]. rewrite fold_absorb_X. reflexivity.
    + rewrite (record_of_content book_id x body Ho).
      unfold kept. cbn [filter]. rewrite (opens_not_blank x Ho). cbn [negb map].
      unfold unlines. cbn [map List.concat]. rewrite <- app_assoc. reflexivity.
Qed.

Lemma no_record_without_opening_line_witness :
  parse_abc_file [] (Readable (text ["T:No number"; "K:D"; "ABCD|"]%string)) 0 = ([], []) /\
  parse_lines [] ([lit "T:Stray"; lit "K:G"] ++ [lit "X:1"; lit "T:A"]) 0 =
    parse_lines [] [lit "X:1"; lit "T:A"] 0 /\
  exists x more,
    In x (readlines section8_text) /\ opens x = true /\
    TuneDict.X tune_102 = Some (between_colons (strip x)) /\
    TuneDict.content tune_102 = Some (strip x ++ [LF] ++ more).
Proof.
  destruct (no_record_without_opening_line [] 0) as (H1 & H2 & _ & H4).
  split; [|split].
  - apply H1. repeat constructor.
  - apply H2. repeat constructor.
  - apply H4. right. left. reflexivity.
Defined.

(** C10.  The loop looks at the stripped line only: an iteration, and the
    whole parse, do the same on a line and on its stripped form.  A line
    whose stripped form starts with [X:] opens a record, however it is
    indented; inside a record one that starts with [T:], [R:] or [K:] sets
    the title (when there is none yet), the rhythm or the key.  A line of
    whitespace only is skipped.  The content of a record is made of the
    stripped forms of its lines.  A line that starts with [x:], [t:], [r:]
    or [k:] is no marker: outside a record it is dropped, inside one it
    goes to the content and sets no field. *)
Theorem lines_are_stripped_first (filepath : str) (book_id : Z) :
  (forall st raw,
     loop_body book_id st raw = loop_body book_id st (strip raw)) /\
  (forall lines,
     parse_lines filepath lines book_id =
     parse_lines filepath (map strip lines) book_id) /\
  (forall st raw,
     startswith (strip raw) X_marker = true ->
     loop_body book_id st raw =
     Next (mk_state (closed st)
             (TuneDict.mk (Some book_id) (Some (strip raw ++ [LF]))
                (Some (between_colons (strip raw))) None None None) true)) /\
  (forall st raw,
     in_tune st = true -> TuneDict.content (current_tune st) <> None ->
     exists st',
       loop_body book_id st raw = Next st' /\
       (startswith (strip raw) T_marker = true ->
        TuneDict.T (current_tune st) = None ->
        TuneDict.T (current_tune st') = Some (between_colons (strip raw))) /\
       (startswith (strip raw) R_marker = true ->
        TuneDict.R (current_tune st') = Some (between_colons (strip raw))) /\
       (startswith (strip raw) K_marker = true ->
        TuneDict.K (current_tune st') = Some (between_colons (strip raw)))) /\
  (forall st raw,
     forallb is_space raw = true -> loop_body book_id st raw = Next st) /\
  (forall src,
     map TuneDict.content (fst (parse_abc_file filepath (Readable src) book_id)) =
     map (fun seg => Some (unlines (map strip
            (filter (fun raw => negb (blank raw)) (fst seg :: snd seg)))))
         (segments (readlines src))) /\
  (forall st raw c,
     In c (lit "xtrk") -> startswith (strip raw) [c; COLON] = true ->
     consistent st ->
     loop_body book_id st raw =
     Next (if in_tune st
           then mk_state (tunes st)
                  (TuneDict.set_content (current_tune st)
                     (get (TuneDict.content (current_tune st)) [] ++ strip raw ++ [LF]))
                  true
           else st)).
Proof.
  split; [|split; [|split; [|split; [|split; [|split]]]]].
  - intros st raw. symmetry. apply loop_body_strip.
  - intros lines. unfold parse_lines. rewrite run_loop_strip. reflexivity.
  - intros st raw H. apply (loop_body_opens book_id st raw H).
  - intros st raw Hin Hc.
    pose proof (loop_body_consistent book_id st raw) as L.
    destruct L as (st' & E & _).
    { split; [intros _; exact Hc | rewrite Hin; discriminate]. }
    exists st'. split; [exact E|].
    split; [|split].
    + intros H HT.
      rewrite (loop_body_field book_id st raw 84%N ltac:(discriminate) H Hin Hc) in E.
      injection E as <-. cbn [current_tune]. rewrite absorb_T, HT, H. reflexivity.
    + intros H.
      rewrite (loop_body_field book_id st raw 82%N ltac:(discriminate) H Hin Hc) in E.
      injection E as <-. cbn [current_tune]. rewrite absorb_R, H. reflexivity.
    + intros H.
      rewrite (loop_body_field book_id st raw 75%N ltac:(discriminate) H Hin Hc) in E.
      injection E as <-. cbn [current_tune]. rewrite absorb_K, H. reflexivity.
  - intros st raw H. apply loop_body_blank. unfold blank.
    rewrite (strip_all_space raw H). reflexivity.
  - intros src. apply contents_of_segments.
  - intros st raw c Hc H [Hcont Hempty].
    assert (Hx : c <> 88%N) by (cbn in Hc; intuition (subst; discriminate)).
    destruct (marker_line raw c H) as [Hb Ho]. specialize (Ho Hx).
    destruct (in_tune st) eqn:Hin.
    + rewrite (loop_body_absorb book_id st raw Hb Ho Hin (Hcont eq_refl)).
      do 2 f_equal. unfold absorb.
      assert (A : forall b, b <> c -> startswith (strip raw) [b; COLON] = false).
      { intros b Hbc. apply (markers_apart (strip raw) c b); [congruence | exact H]. }
      assert (U : c <> 84%N /\ c <> 82%N /\ c <> 75%N)
        by (cbn in Hc; intuition (subst; discriminate)).
      destruct U as (U1 & U2 & U3).
      rewrite (A 84%N ltac:(congruence) : startswith (strip raw) T_marker = false).
      rewrite (A 82%N ltac:(congruence) : startswith (strip raw) R_marker = false).
      rewrite (A 75%N ltac:(congruence) : startswith (strip raw) K_marker = false).
      reflexivity.
    + apply (loop_body_outside book_id st raw Ho Hin).
Qed.

Lemma lines_are_stripped_first_witness :
  loop_body 0 initial (lit "   X:7  ") =
    Next (mk_state []
            (TuneDict.mk (Some 0%Z) (Some (lit "X:7" ++ [LF])) (Some (lit "7"))
               None None None) true) /\
  (exists st',
     loop_body 0 (mk_state [] (opened 0 (lit "X:7")) true) (lit "  T: Indented  ") = Next st' /\
     TuneDict.T (current_tune st') = Some (lit "Indented")) /\
  (exists st',
     loop_body 0 (mk_state [] (opened 0 (lit "X:7")) true) (lit "  R: Jig  ") = Next st' /\
     TuneDict.R (current_tune st') = Some (lit "Jig")) /\
  (exists st',
     loop_body 0 (mk_state [] (opened 0 (lit "X:7")) true) (lit "  K: G  ") = Next st' /\
     TuneDict.K (current_tune st') = Some (lit "G")) /\
  loop_body 0 (mk_state [] (opened 0 (lit "X:7")) true) [32; 9; 12; 160; 8195]%N =
    Next (mk_state [] (opened 0 (lit "X:7")) true) /\
  loop_body 0 initial (lit "x:8") = Next initial /\
  loop_body 0 (mk_state [] (opened 0 (lit "X:7")) true) (lit " t:lower ") =
    Next (mk_state []
            (TuneDict.mk (Some 0%Z) (Some (text ["X:7"; "t:lower"]%string))
               (Some (lit "7")) None None None) true).
Proof.
  destruct (lines_are_stripped_first [] 0) as (_ & _ & H3 & H4 & H5 & _ & H7).
  split; [|split; [|split; [|split; [|split; [|split]]]]].
  - apply (H3 initial (lit "   X:7  ")). reflexivity.
  - destruct (H4 (mk_state [] (opened 0 (lit "X:7")) true) (lit "  T: Indented  ")
                eq_refl ltac:(discriminate)) as (st' & E & HT & _ & _).
    exists st'. split; [exact E|]. apply HT; reflexivity.
  - destruct (H4 (mk_state [] (opened 0 (lit "X:7")) true) (lit "  R: Jig  ")
                eq_refl ltac:(discriminate)) as (st' & E & _ & HR & _).
    exists st'. split; [exact E|]. apply HR; reflexivity.
  - destruct (H4 (mk_state [] (opened 0 (lit "X:7")) true) (lit "  K: G  ")
                eq_refl ltac:(discriminate)) as (st' & E & _ & _ & HK).
    exists st'. split; [exact E|]. apply HK; reflexivity.
  - apply H5. reflexivity.
  - apply (H7 initial (lit "x:8") 120%N); [left; reflexivity | reflexivity|].
    split; [discriminate | reflexivity].
  - apply (H7 (mk_state [] (opened 0 (lit "X:7")) true) (lit " t:lower ") 116%N);
      [right; left; reflexivity | reflexivity|].
    split; [discriminate | discriminate].
Defined.

(** * Further properties of the code *)

(** ** The parser: exceptions, line ends, joining texts *)

Section ParserMore.

Variables (filepath : str) (book_id : Z).

Lemma parse_lines_kept (lines : list str) :
  parse_lines filepath (kept lines) book_id = parse_lines filepath lines book_id.
Proof.
  unfold kept, parse_lines. rewrite run_loop_strip, run_loop_skip_blank. reflexivity.
Qed.

Lemma kept_app (l1 l2 : list str) : kept (l1 ++ l2) = kept l1 ++ kept l2.
Proof. unfold kept. rewrite filter_app, map_app. reflexivity. Qed.

Lemma translate_newlines_no_CR (n : nat) :
  forall s, List.length s <= n -> ~ In CR (translate_newlines s).
Proof.
  induction n as [|n IH]; intros s Hn.
  - destruct s; [intros [] | cbn in Hn; lia].
  - destruct s as [|c s]; [intros []|]. cbn [List.length] in Hn.
    cbn [translate_newlines]. destruct (c =? CR)%N eqn:E.
    + destruct s as [|d s].
      * intros [H | []]. discriminate H.
      * cbn [List.length] in Hn. destruct (d =? LF)%N.
        -- intros [H | H]; [discriminate H | exact (IH s ltac:(lia) H)].
        -- intros [H | H]; [discriminate H | exact (IH (d :: s) ltac:(cbn; lia) H)].
    + apply N.eqb_neq in E. intros [H | H]; [congruence | exact (IH s ltac:(lia) H)].
Qed.

Lemma translate_newlines_idem (s : str) :
  translate_newlines (translate_newlines s) = translate_newlines s.
Proof.
  apply translate_newlines_id. apply (translate_newlines_no_CR (List.length s) s (le_n _)).
Qed.

Lemma translate_dos (s : str) :
  ~ In CR s -> translate_newlines (dos_newlines s) = s.
Proof.
  induction s as [|c s IH]; intros H; [reflexivity|].
  assert (Hs : ~ In CR s) by (intros Hin; apply H; right; exact Hin).
  cbn [dos_newlines]. destruct (c =? LF)%N eqn:E.
  - apply N.eqb_eq in E. subst c. cbn [translate_newlines].
    rewrite N.eqb_refl. change (LF =? LF)%N with true. cbn iota.
    rewrite (IH Hs). reflexivity.
  - cbn [translate_newlines]. destruct (c =? CR)%N eqn:E2.
    + apply N.eqb_eq in E2. exfalso. apply H. left. exact E2.
    + rewrite (IH Hs). reflexivity.
Qed.

Lemma translate_mac (s : str) :
  ~ In CR s -> translate_newlines (mac_newlines s) = s.
Proof.
  induction s as [|c s IH]; intros H; [reflexivity|].
  assert (Hs : ~ In CR s) by (intros Hin; apply H; right; exact Hin).
  cbn [mac_newlines map]. fold (mac_newlines s). destruct (c =? LF)%N eqn:E.
  - apply N.eqb_eq in E. subst c. cbn [translate_newlines].
    rewrite N.eqb_refl. rewrite <- (IH Hs) at 2.
    destruct s as [|d s']; [reflexivity|].
    cbn [mac_newlines map]. fold (mac_newlines s').
    destruct (d =? LF)%N eqn:E3; [reflexivity|]. rewrite E3. reflexivity.
  - cbn [translate_newlines]. destruct (c =? CR)%N eqn:E2.
    + apply N.eqb_eq in E2. exfalso. apply H. left. exact E2.
    + rewrite (IH Hs). reflexivity.
Qed.

End ParserMore.

Section TrailingNewline.

Lemma last_LF_split (t : str) :
  ~ In LF t \/ exists a w, t = a ++ LF :: w /\ ~ In LF w.
Proof.
  induction t as [|c t IH]; [left; intros []|].
  destruct IH as [H | (a & w & -> & Hw)].
  - destruct (N.eq_dec c LF) as [-> | Hc].
    + right. exists [], t. split; [reflexivity | exact H].
    + left. intros [E | Hin]; [exact (Hc E) | exact (H Hin)].
  - right. exists (c :: a), w. split; [reflexivity | exact Hw].
Qed.

Lemma keepends_no_LF (w : str) :
  ~ In LF w -> keepends w = match w with [] => [] | _ :: _ => [w] end.
Proof.
  induction w as [|c w IH]; intros H; [reflexivity|].
  cbn [keepends]. destruct (c =? LF)%N eqn:E.
  - apply N.eqb_eq in E. exfalso. apply H. left. exact E.
  - rewrite IH by (intros Hin; apply H; right; exact Hin).
    destruct w; reflexivity.
Qed.

Lemma kept_one_terminated (w : str) :
  ~ In LF w -> kept (keepends (w ++ [LF])) = kept (keepends w).
Proof.
  intros H. rewrite (keepends_line w [] H), (keepends_no_LF w H). cbn [keepends app].
  unfold kept. cbn [filter]. rewrite blank_terminated.
  destruct w as [|c w].
  - reflexivity.
  - cbn [filter]. destruct (blank (c :: w)); cbn [negb map]; [reflexivity|].
    rewrite strip_snoc_space by reflexivity. reflexivity.
Qed.

(** A newline at the end of a text adds no line that counts. *)
Lemma kept_keepends_terminated (t : str) :
  kept (keepends (t ++ [LF])) = kept (keepends t).
Proof.
  destruct (last_LF_split t) as [H | (a & w & -> & Hw)].
  - apply (kept_one_terminated t H).
  - rewrite <- app_assoc. cbn [app].
    rewrite (keepends_LF a (w ++ [LF])), (keepends_LF a w), !kept_app.
    rewrite (kept_one_terminated w Hw). reflexivity.
Qed.

Lemma translate_newlines_snoc_LF (n : nat) :
  forall a, List.length a <= n ->
  translate_newlines (a ++ [LF]) = translate_newlines a ++ [LF] \/
  translate_newlines (a ++ [LF]) = translate_newlines a.
Proof.
  induction n as [|n IH]; intros a Hn.
  - destruct a; [left; reflexivity | cbn in Hn; lia].
  - destruct a as [|c a]; [left; reflexivity|]. cbn [List.length] in Hn.
    cbn [app translate_newlines]. destruct (c =? CR)%N.
    + destruct a as [|d a]; cbn [app].
      * right. reflexivity.
      * cbn [List.length] in Hn. destruct (d =? LF)%N.
        -- destruct (IH a ltac:(lia)) as [-> | ->]; [left | right]; reflexivity.
        -- destruct (IH (d :: a) ltac:(cbn; lia)) as [E | E]; cbn [app] in E;
             rewrite E; [left | right]; reflexivity.
    + destruct (IH a ltac:(lia)) as [-> | ->]; [left | right]; reflexivity.
Qed.

Lemma kept_readlines_terminated (src : str) :
  kept (readlines (src ++ [LF])) = kept (readlines src).
Proof.
  unfold readlines.
  destruct (translate_newlines_snoc_LF (List.length src) src (le_n _)) as [-> | ->];
    [apply kept_keepends_terminated | reflexivity].
Qed.

End TrailingNewline.

Lemma parse_abc_file_terminated (filepath : str) (book_id : Z) (src : str) :
  parse_abc_file filepath (Readable (src ++ [LF])) book_id =
  parse_abc_file filepath (Readable src) book_id.
Proof.
  cbn [parse_abc_file].
  rewrite <- (parse_lines_kept filepath book_id (readlines (src ++ [LF]))).
  rewrite kept_readlines_terminated. apply parse_lines_kept.
Qed.

(** X1.  Once the file has been read, the parser raises nothing and prints
    nothing: whatever the lines, no iteration of the loop runs into a
    missing ['content'] key or a [split] without a second part, so the
    [except] clause is only ever entered from [open] or [readlines]. *)
Theorem parse_never_raises (filepath : str) (book_id : Z) :
  (forall lines, exists st, run_loop book_id initial lines = Next st) /\
  (forall src, snd (parse_abc_file filepath (Readable src) book_id) = []).
Proof.
  split.
  - intros lines.
    destruct (run_loop_total book_id initial lines consistent_initial) as (st & E & _).
    exists st. exact E.
  - intros src. apply parse_lines_silent.
Qed.

(** X2.  The three conventions for line ends read alike: a text parses as
    the text with every CR LF and every CR turned into LF; a text written
    with LF parses the same written with CR LF, and written with CR. *)
Theorem line_ends_do_not_matter (filepath : str) (book_id : Z) :
  (forall src,
     parse_abc_file filepath (Readable (translate_newlines src)) book_id =
     parse_abc_file filepath (Readable src) book_id) /\
  (forall src,
     ~ In CR src ->
     parse_abc_file filepath (Readable (dos_newlines src)) book_id =
     parse_abc_file filepath (Readable src) book_id /\
     parse_abc_file filepath (Readable (mac_newlines src)) book_id =
     parse_abc_file filepath (Readable src) book_id).
Proof.
  split.
  - intros src. cbn [parse_abc_file]. unfold readlines.
    rewrite translate_newlines_idem. reflexivity.
  - intros src H. cbn [parse_abc_file]. unfold readlines.
    rewrite (translate_dos src H), (translate_mac src H),
      (translate_newlines_id src H). split; reflexivity.
Qed.

Lemma line_ends_do_not_matter_witness :
  parse_abc_file [] (Readable (dos_newlines section8_text)) 0 =
    parse_abc_file [] (Readable section8_text) 0 /\
  parse_abc_file [] (Readable (mac_newlines section8_text)) 0 =
    parse_abc_file [] (Readable section8_text) 0.
Proof.
  apply (proj2 (line_ends_do_not_matter [] 0) section8_text).
  vm_compute. intuition discriminate.
Defined.

(** X3.  A newline more or less at the end of the text changes nothing: the
    text parses the same with a final newline added. *)
Theorem final_newline_is_optional (filepath : str) (book_id : Z) (src : str) :
  parse_abc_file filepath (Readable (src ++ [LF])) book_id =
  parse_abc_file filepath (Readable src) book_id.
Proof. apply parse_abc_file_terminated. Qed.

(** ** The parser: joining texts, reference numbers, header values *)

Section ParserFields.

Variables (filepath : str) (book_id : Z).

Lemma parse_lines_cut_blank (before blanks : list str) (x : str) (rest : list str) :
  Forall (fun raw => blank raw = true) blanks -> opens x = true ->
  fst (parse_lines filepath (before ++ blanks ++ x :: rest) book_id) =
  fst (parse_lines filepath before book_id) ++
  fst (parse_lines filepath (blanks ++ x :: rest) book_id).
Proof.
  intros Hb Hx.
  rewrite <- (parse_lines_skip_blank filepath book_id (before ++ blanks ++ x :: rest)).
  rewrite <- (parse_lines_skip_blank filepath book_id (blanks ++ x :: rest)).
  rewrite <- (parse_lines_skip_blank filepath book_id before).
  rewrite !filter_app, (filter_blanks blanks Hb). cbn [app filter].
  rewrite (opens_not_blank x Hx). cbn [negb].
  apply parse_lines_cut. exact Hx.
Qed.

Lemma segments_openers (lines : list str) :
  map fst (segments lines) = filter opens lines.
Proof.
  induction lines as [|raw rest IH]; [reflexivity|].
  cbn [segments filter]. destruct (opens raw); cbn [map fst]; rewrite IH; reflexivity.
Qed.

Lemma split_parts_no_sep (s : str) (sep : char) :
  Forall (fun part => ~ In sep part) (split s sep).
Proof.
  induction s as [|c s IH]; cbn [split].
  - constructor; [intros [] | constructor].
  - destruct (c =? sep)%N eqn:E.
    + constructor; [intros [] | exact IH].
    + apply N.eqb_neq in E. destruct (split s sep) as [|l ls].
      * constructor; [|constructor]. intros [H | []]. congruence.
      * inversion IH as [|? ? Hl Hls]; subst. constructor; [|exact Hls].
        intros [H | H]; [congruence | exact (Hl H)].
Qed.

(** A header value holds no colon and no whitespace around it. *)
Lemma between_colons_clean (line : str) :
  ~ In COLON (between_colons line) /\
  strip (between_colons line) = between_colons line.
Proof.
  unfold between_colons. split; [|apply strip_idem].
  intros H. apply strip_incl in H.
  pose proof (split_parts_no_sep line COLON) as F. rewrite Forall_forall in F.
  destruct (split line COLON) as [|p0 [|p1 ps]] eqn:E; cbn [nth] in H.
  - exact H.
  - exact H.
  - apply (F p1); [right; left; reflexivity | exact H].
Qed.

Lemma record_of_header_fields (seg : str * list str) (v : str) :
  In (Some v) (header_fields (record_of book_id seg)) ->
  exists line, v = between_colons line.
Proof.
  destruct seg as [x body]. unfold header_fields, record_of. cbn [fst snd].
  rewrite fold_absorb_X, fold_absorb_T, fold_absorb_R, fold_absorb_K. cbn [opened TuneDict.X TuneDict.T TuneDict.R TuneDict.K].
  intros [H | [H | [H | [H | []]]]].
  - injection H as <-. eexists; reflexivity.
  - destruct (first_with T_marker (kept body)) as [l|]; [|discriminate H].
    injection H as <-. eexists; reflexivity.
  - destruct (last_with R_marker (kept body)) as [l|]; [|discriminate H].
    injection H as <-. eexists; reflexivity.
  - destruct (last_with K_marker (kept body)) as [l|]; [|discriminate H].
    injection H as <-. eexists; reflexivity.
Qed.

Lemma record_of_rebook (b' : Z) (seg : str * list str) :
  rebook b' (record_of book_id seg) = record_of b' seg.
Proof.
  destruct seg as [x body]. unfold record_of. cbn [fst snd].
  assert (G : forall ls d, rebook b' (fold_left absorb ls d) =
                           fold_left absorb ls (rebook b' d)).
  { induction ls as [|l ls IH]; intros d; [reflexivity|].
    cbn [fold_left]. rewrite IH. f_equal.
    destruct d as [b c x0 t r k]. unfold absorb, rebook.
    cbn [TuneDict.set_content TuneDict.content TuneDict.T TuneDict.book_id
         TuneDict.X TuneDict.R TuneDict.K].
    destruct (startswith l T_marker); [destruct t; reflexivity|].
    destruct (startswith l R_marker); [reflexivity|].
    destruct (startswith l K_marker); reflexivity. }
  rewrite G. reflexivity.
Qed.

End ParserFields.

(** X4.  Two texts joined by a newline parse to the records of the first
    followed by the records of the second, provided the first line of the
    second text that is not blank opens a record. *)
Theorem joined_texts_parse_apart (filepath : str) (book_id : Z) (a b : str) :
  (exists blanks x rest,
     readlines b = blanks ++ x :: rest /\
     Forall (fun raw => blank raw = true) blanks /\ opens x = true) ->
  fst (parse_abc_file filepath (Readable (a ++ LF :: b)) book_id) =
  fst (parse_abc_file filepath (Readable a) book_id) ++
  fst (parse_abc_file filepath (Readable b) book_id).
Proof.
  intros (blanks & x & rest & E & Hb & Hx).
  rewrite <- (parse_abc_file_terminated filepath book_id a).
  cbn [parse_abc_file]. rewrite readlines_LF, E.
  apply (parse_lines_cut_blank filepath book_id _ blanks x rest Hb Hx).
Qed.

Lemma joined_texts_parse_apart_witness :
  fst (parse_abc_file [] (Readable (text ["X:1"; "T:A"]%string ++ LF ::
                                    text [""; "X:2"; "T:B"]%string)) 0) =
  fst (parse_abc_file [] (Readable (text ["X:1"; "T:A"]%string)) 0) ++
  fst (parse_abc_file [] (Readable (text [""; "X:2"; "T:B"]%string)) 0).
Proof.
  apply joined_texts_parse_apart.
  exists [[LF]], (lit "X:2" ++ [LF]), [lit "T:B" ++ [LF]].
  split; [reflexivity|]. split; [repeat constructor | reflexivity].
Defined.

(** X5.  The reference numbers of the records returned are, in the order
    of the text, the values of its opening lines: one record for each
    opening line, none lost, none out of place. *)
Theorem reference_numbers_in_order (filepath : str) (book_id : Z) (src : str) :
  map TuneDict.X (fst (parse_abc_file filepath (Readable src) book_id)) =
  map (fun x => Some (between_colons (strip x))) (filter opens (readlines src)).
Proof.
  rewrite parse_abc_file_segments. cbn [fst].
  rewrite <- segments_openers, !map_map. apply map_ext. intros [x body].
  unfold record_of. cbn [fst snd]. rewrite fold_absorb_X. reflexivity.
Qed.

(** X6.  No header value the parser stores (reference number, title,
    rhythm, key) holds a colon, and none has whitespace at either end. *)
Theorem header_values_are_clean (filepath : str) (file : source_text)
    (book_id : Z) (r : TuneDict.t) (v : str) :
  In r (fst (parse_abc_file filepath file book_id)) ->
  In (Some v) (header_fields r) ->
  ~ In COLON v /\ strip v = v.
Proof.
  destruct file as [src|e]; [|intros []].
  rewrite parse_abc_file_segments. cbn [fst]. intros Hr Hv.
  apply in_map_iff in Hr as (seg & <- & _).
  destruct (record_of_header_fields book_id seg v Hv) as [line ->].
  apply between_colons_clean.
Qed.

Lemma header_values_are_clean_witness :
  ~ In COLON (lit "The Quick Jig") /\ strip (lit "The Quick Jig") = lit "The Quick Jig".
Proof.
  apply (header_values_are_clean [] (Readable section8_text) 0 tune_102).
  - vm_compute. right. left. reflexivity.
  - vm_compute. right. left. reflexivity.
Defined.

(** X7.  The book number is opaque to the parser: parsing under another
    book number gives the same dictionaries with that number in them. *)
Theorem book_number_is_only_recorded (filepath : str) (file : source_text)
    (book_id book_id' : Z) :
  fst (parse_abc_file filepath file book_id') =
  map (rebook book_id') (fst (parse_abc_file filepath file book_id)).
Proof.
  destruct file as [src|e]; [|reflexivity].
  rewrite !parse_abc_file_segments. cbn [fst]. rewrite map_map.
  apply map_ext. intros seg. symmetry. apply record_of_rebook.
Qed.

(** ** The parser: the content of a record is a text of its own *)

Section ContentRoundTrip.

Variables (filepath : str) (book_id : Z).

Lemma keepends_incl (s : str) :
  Forall (fun l => incl l s) (keepends s).
Proof.
  induction s as [|c s IH]; cbn [keepends]; [constructor|].
  assert (W : Forall (fun l => incl l (c :: s)) (keepends s)).
  { eapply Forall_impl; [|exact IH]. cbn. intros l Hl. apply incl_tl, Hl. }
  destruct (c =? LF)%N.
  - constructor; [|exact W]. intros d [<- | []]. left. reflexivity.
  - destruct (keepends s) as [|l ls].
    + constructor; [|constructor]. intros d [<- | []]. left. reflexivity.
    + inversion IH as [|? ? Hl Hls]; subst. inversion W; subst.
      constructor; [|assumption]. intros d [<- | Hd]; [left; reflexivity|].
      right. apply Hl, Hd.
Qed.

Lemma readlines_tidy (src : str) :
  Forall (fun raw => tidy (strip raw)) (readlines src).
Proof.
  pose proof (readlines_strip_no_LF src) as A.
  pose proof (keepends_incl (translate_newlines src)) as B.
  fold (readlines src) in B. rewrite Forall_forall in A, B. apply Forall_forall.
  intros raw Hraw. split; [apply A, Hraw|].
  intros H. apply strip_incl in H. apply (B raw Hraw) in H.
  apply (translate_newlines_no_CR (List.length src) src (le_n _) H).
Qed.

Lemma kept_tidy (lines : list str) :
  Forall (fun raw => tidy (strip raw)) lines ->
  Forall (fun l => tidy l /\ blank l = false /\ strip l = l) (kept lines).
Proof.
  induction 1 as [|raw lines Hraw _ IH]; [constructor|].
  unfold kept. cbn [filter]. destruct (blank raw) eqn:Hb; cbn [negb map]; [exact IH|].
  constructor; [|exact IH]. rewrite blank_strip, strip_idem. auto.
Qed.

Lemma unlines_app (l1 l2 : list str) : unlines (l1 ++ l2) = unlines l1 ++ unlines l2.
Proof. unfold unlines. rewrite map_app, concat_app. reflexivity. Qed.

Lemma unlines_no_CR (ls : list str) :
  Forall (fun l => ~ In CR l) ls -> ~ In CR (unlines ls).
Proof.
  induction 1 as [|l ls Hl _ IH]; [intros []|].
  unfold unlines. cbn [map List.concat]. fold (unlines ls). intros H.
  apply in_app_or in H as [H | H]; [|exact (IH H)].
  apply in_app_or in H as [H | [H | []]]; [exact (Hl H) | discriminate H].
Qed.

Lemma kept_terminated (ls : list str) :
  Forall (fun l => tidy l /\ blank l = false /\ strip l = l) ls ->
  kept (map (fun l => l ++ [LF]) ls) = ls.
Proof.
  induction 1 as [|l ls (_ & Hb & Hs) _ IH]; [reflexivity|].
  unfold kept. cbn [map filter]. rewrite blank_terminated, Hb. cbn [negb map].
  rewrite strip_snoc_space by reflexivity. rewrite Hs. f_equal. exact IH.
Qed.

(** Tidy lines written out as a text are read back as they were. *)
Lemma parse_unlines (ls : list str) :
  Forall (fun l => tidy l /\ blank l = false /\ strip l = l) ls ->
  parse_abc_file filepath (Readable (unlines ls)) book_id =
  parse_lines filepath ls book_id.
Proof.
  intros H. cbn [parse_abc_file]. unfold readlines.
  rewrite translate_newlines_id, keepends_unlines.
  - rewrite <- (parse_lines_kept filepath book_id (map _ ls)).
    exact (f_equal (fun k => parse_lines filepath k book_id) (kept_terminated ls H)).
  - eapply Forall_impl; [|exact H]. cbn. unfold tidy. tauto.
  - apply unlines_no_CR. eapply Forall_impl; [|exact H]. cbn. unfold tidy. tauto.
Qed.

Lemma kept_cons (raw : str) (lines : list str) :
  kept (raw :: lines) = if blank raw then kept lines else strip raw :: kept lines.
Proof. unfold kept. cbn [filter]. destruct (blank raw); reflexivity. Qed.

Lemma kept_idem (lines : list str) : kept (kept lines) = kept lines.
Proof.
  induction lines as [|raw lines IH]; [reflexivity|].
  rewrite (kept_cons raw lines). destruct (blank raw) eqn:Hb; [exact IH|].
  rewrite kept_cons, blank_strip, Hb, strip_idem, IH. reflexivity.
Qed.

Lemma kept_no_open (lines : list str) :
  Forall (fun raw => opens raw = false) lines ->
  Forall (fun raw => opens raw = false) (kept lines).
Proof.
  induction 1 as [|raw lines Hraw _ IH]; [constructor|].
  unfold kept. cbn [filter]. destruct (blank raw); cbn [negb map]; [exact IH|].
  constructor; [|exact IH]. unfold opens. rewrite strip_idem. exact Hraw.
Qed.

Lemma after_body_incl (lines : list str) : incl (after_body lines) lines.
Proof.
  induction lines as [|raw rest IH]; cbn [after_body]; [apply incl_refl|].
  destruct (opens raw); [apply incl_refl | apply incl_tl, IH].
Qed.

Lemma body_of_incl (lines : list str) : incl (body_of lines) lines.
Proof.
  induction lines as [|raw rest IH]; cbn [body_of]; [apply incl_refl|].
  destruct (opens raw); [intros a [] | apply incl_cons; [left; reflexivity | apply incl_tl, IH]].
Qed.

(** The contents of the segments, one after the other, are the kept lines
    of the input from its first opening line on. *)
Lemma segments_contents (lines : list str) :
  List.concat (map (fun seg => unlines (kept (fst seg :: snd seg))) (segments lines)) =
  unlines (kept (after_body lines)).
Proof.
  induction lines as [|raw rest IH]; [reflexivity|].
  cbn [segments after_body]. destruct (opens raw) eqn:E; [|exact IH].
  cbn [map List.concat fst snd]. rewrite IH.
  rewrite <- unlines_app. f_equal.
  change (raw :: body_of rest) with ([raw] ++ body_of rest).
  change (raw :: rest) with ([raw] ++ rest).
  rewrite !kept_app, <- app_assoc. f_equal.
  rewrite <- kept_app, <- body_after. reflexivity.
Qed.

Lemma contents_of_parse (src : str) :
  contents (fst (parse_abc_file filepath (Readable src) book_id)) =
  unlines (kept (after_body (readlines src))).
Proof.
  unfold contents. rewrite <- segments_contents.
  rewrite <- (map_map TuneDict.content (fun c => get c [])).
  rewrite contents_of_segments, map_map. reflexivity.
Qed.

End ContentRoundTrip.

(** X8.  The content of a record is a text that parses back to that very
    record, and to nothing else. *)
Theorem content_parses_back (filepath : str) (book_id : Z) (src : str)
    (r : TuneDict.t) (c : str) :
  In r (fst (parse_abc_file filepath (Readable src) book_id)) ->
  TuneDict.content r = Some c ->
  parse_abc_file filepath (Readable c) book_id = ([r], []).
Proof.
  intros Hr Hc. rewrite parse_abc_file_segments in Hr. cbn [fst] in Hr.
  apply in_map_iff in Hr as ([x body] & <- & Hin).
  destruct (segments_in _ _ _ Hin) as [Hx Ho].
  rewrite (record_of_content book_id x body Ho) in Hc. injection Hc as <-.
  pose proof (readlines_tidy src) as R. rewrite Forall_forall in R.
  assert (Hb : Forall (fun raw => In raw (readlines src) /\ opens raw = false) body)
    by apply (segments_body_in _ _ _ Hin).
  rewrite parse_unlines.
  - unfold kept at 1. cbn [filter]. rewrite (opens_not_blank x Ho). cbn [negb map].
    rewrite parse_lines_one.
    + unfold record_of. cbn [fst snd].
      fold (kept body). rewrite kept_idem, strip_idem. reflexivity.
    + unfold opens. rewrite strip_idem. exact Ho.
    + apply kept_no_open. eapply Forall_impl; [|exact Hb]. cbn. tauto.
  - apply kept_tidy. constructor; [apply R, Hx|].
    eapply Forall_impl; [|exact Hb]. cbn. intros raw [Hraw _]. apply R, Hraw.
Qed.

Lemma content_parses_back_witness :
  parse_abc_file []
    (Readable (text ["X:102"; "T:The Quick Jig"; "R:Jig"; "K:G"; "GBdB GBdB|"]%string)) 0 =
  ([tune_102], []).
Proof.
  apply (content_parses_back [] 0 section8_indented tune_102).
  - vm_compute. right. left. reflexivity.
  - reflexivity.
Defined.

(** X9.  The contents of all the records of a text, written one after the
    other, parse to the same records as the text: what the parser keeps of
    a text is a text in normal form for it. *)
Theorem contents_parse_to_the_same_records (filepath : str) (book_id : Z) (src : str) :
  parse_abc_file filepath
    (Readable (contents (fst (parse_abc_file filepath (Readable src) book_id))))
    book_id =
  parse_abc_file filepath (Readable src) book_id.
Proof.
  rewrite contents_of_parse, parse_unlines.
  - rewrite parse_lines_kept. apply parse_lines_after_body.
  - apply kept_tidy. pose proof (readlines_tidy src) as R.
    rewrite Forall_forall in R. apply Forall_forall.
    intros raw Hraw. apply R, (after_body_incl _ _ Hraw).
Qed.

(** ** The store: ids, NULLs, errors *)

Section StoreMore.

Lemma max_rowid_bound (l : list TuneRow.t) (m : Z) :
  (0 <= m)%Z -> Forall (fun r => (TuneRow.id r <= m)%Z) l -> (0 <= max_rowid l <= m)%Z.
Proof.
  intros Hm. induction 1 as [|r l Hr _ IH]; cbn; [lia|].
  fold (max_rowid l). lia.
Qed.

Lemma max_rowid_above (l : list TuneRow.t) :
  (0 <= max_rowid l)%Z /\ Forall (fun r => (TuneRow.id r <= max_rowid l)%Z) l.
Proof.
  induction l as [|r l [H0 IH]]; cbn; [split; [lia | constructor]|].
  fold (max_rowid l). split; [lia|]. constructor; [lia|].
  eapply Forall_impl; [|exact IH]. cbn. intros a Ha. lia.
Qed.

Lemma StronglySorted_snoc (l : list Z) (a : Z) :
  StronglySorted Z.lt l -> Forall (fun x => (x < a)%Z) l ->
  StronglySorted Z.lt (l ++ [a]).
Proof.
  induction 1 as [|x l Hl IH Hx]; intros Ha; cbn.
  - repeat constructor.
  - inversion Ha; subst. constructor; [apply IH; assumption|].
    apply Forall_app. split; [exact Hx | repeat constructor; assumption].
Qed.

(** What an insert that goes through does to a table, whatever the table. *)
Lemma insert_tune_inv (tbl : tunes_table) (t : TuneDict.t) (db' : database) :
  insert_tune (Some tbl) t = Ok db' ->
  let new_id := (Z.max (sqlite_sequence tbl) (max_rowid (rows tbl)) + 1)%Z in
  db' = Some (mk_table (rows tbl ++ [row_of new_id t]) new_id) /\ storable t.
Proof.
  unfold insert_tune, bind_int, storable, row_of.
  destruct (TuneDict.book_id t) as [z|].
  - destruct (fits_int64 z); cbn [bind]; [|discriminate].
    intros H. injection H as <-. split; reflexivity.
  - cbn [bind]. intros H. injection H as <-. split; [reflexivity | exact I].
Qed.

Lemma well_numbered_counted (tbl : tunes_table) : well_numbered tbl -> counted tbl.
Proof.
  intros (_ & F & H0). apply max_rowid_bound; [exact H0|].
  eapply Forall_impl; [|exact F]. cbn. intros r Hr. lia.
Qed.

Lemma well_numbered_insert (tbl : tunes_table) (t : TuneDict.t) :
  well_numbered tbl ->
  well_numbered (mk_table (rows tbl ++ [row_of (sqlite_sequence tbl + 1) t])
                          (sqlite_sequence tbl + 1)).
Proof.
  intros (S & F & H0). unfold well_numbered. cbn [rows sqlite_sequence].
  split; [|split; [|lia]].
  - rewrite map_app. cbn [map row_of TuneRow.id]. apply StronglySorted_snoc; [exact S|].
    apply Forall_map. eapply Forall_impl; [|exact F]. cbn. intros r Hr. lia.
  - apply Forall_app. split.
    + eapply Forall_impl; [|exact F]. cbn. intros r Hr. lia.
    + constructor; [cbn; lia | constructor].
Qed.

Lemma built_well_numbered (db : database) :
  built db -> forall tbl, db = Some tbl ->
  well_numbered tbl /\ Forall filled (rows tbl).
Proof.
  induction 1 as [|db Hb IH|db db' t Hb IH Hi]; intros tbl E.
  - discriminate E.
  - destruct db as [tbl0|]; cbn in E; injection E as <-.
    + apply IH. reflexivity.
    + split; [|constructor]. unfold well_numbered. cbn.
      split; [constructor | split; [constructor | lia]].
  - destruct db as [tbl0|]; [|discriminate Hi]. subst db'.
    destruct (IH tbl0 eq_refl) as [W Fl].
    destruct (insert_tune_inv tbl0 t _ Hi) as [E _]. injection E as ->.
    pose proof (well_numbered_counted tbl0 W) as C. unfold counted in C.
    replace (Z.max (sqlite_sequence tbl0) (max_rowid (rows tbl0)))
      with (sqlite_sequence tbl0) by lia.
    split; [apply well_numbered_insert, W|]. cbn [rows].
    apply Forall_app. split; [exact Fl|]. constructor; [|constructor].
    unfold filled, row_of. cbn. repeat split; discriminate.
Qed.

Lemma StronglySorted_lt_NoDup (l : list Z) : StronglySorted Z.lt l -> NoDup l.
Proof.
  induction 1 as [|x l Hl IH Hx]; constructor; [|exact IH].
  intros Hin. rewrite Forall_forall in Hx. specialize (Hx x Hin). lia.
Qed.

End StoreMore.

(** X10.  In any table, an insert that goes through adds one row at the
    end and touches no other; the id it gives is larger than every id in
    the table and than the counter, so that no id is ever given twice. *)
Theorem insert_gives_a_new_id (tbl : tunes_table) (tune_data : TuneDict.t)
    (db' : database) :
  insert_tune (Some tbl) tune_data = Ok db' ->
  exists r,
    db' = Some (mk_table (rows tbl ++ [r]) (TuneRow.id r)) /\
    Forall (fun r0 => (TuneRow.id r0 < TuneRow.id r)%Z) (rows tbl) /\
    (sqlite_sequence tbl < TuneRow.id r)%Z /\
    tune_columns r =
      (TuneDict.book_id tune_data, TuneDict.X tune_data,
       Some (get (TuneDict.T tune_data) Unknown),
       Some (get (TuneDict.R tune_data) Unknown),
       Some (get (TuneDict.K tune_data) Unknown),
       Some (get (TuneDict.content tune_data) [])).
Proof.
  intros H. destruct (insert_tune_inv tbl tune_data db' H) as [-> _].
  exists (row_of (Z.max (sqlite_sequence tbl) (max_rowid (rows tbl)) + 1) tune_data).
  split; [reflexivity|]. cbn [row_of TuneRow.id].
  split; [|split; [lia | reflexivity]].
  destruct (max_rowid_above (rows tbl)) as [_ F].
  eapply Forall_impl; [|exact F]. cbn. intros r Hr. lia.
Qed.

Lemma insert_gives_a_new_id_witness :
  exists r,
    Some (mk_table (jig_and_reel ++ [row_of 8 tune_101]) 8) =
      Some (mk_table (jig_and_reel ++ [r]) (TuneRow.id r)) /\
    Forall (fun r0 => (TuneRow.id r0 < TuneRow.id r)%Z) jig_and_reel /\
    (7 < TuneRow.id r)%Z /\
    tune_columns r =
      (TuneDict.book_id tune_101, TuneDict.X tune_101,
       Some (get (TuneDict.T tune_101) Unknown),
       Some (get (TuneDict.R tune_101) Unknown),
       Some (get (TuneDict.K tune_101) Unknown),
       Some (get (TuneDict.content tune_101) [])).
Proof.
  apply (insert_gives_a_new_id (mk_table jig_and_reel 7) tune_101).
  reflexivity.
Defined.

(** X11.  In every database the program can bring about (created, opened
    again, inserted into, in any order and number), the ids are all
    different, they go up along the rows from 1 to the counter, and no row
    has a NULL title, rhythm, key or content. *)
Theorem built_tables_are_well_formed (db : database) (tbl : tunes_table) :
  built db -> db = Some tbl ->
  NoDup (map TuneRow.id (rows tbl)) /\
  StronglySorted Z.lt (map TuneRow.id (rows tbl)) /\
  Forall (fun r => (1 <= TuneRow.id r <= sqlite_sequence tbl)%Z) (rows tbl) /\
  Forall filled (rows tbl).
Proof.
  intros Hb E. destruct (built_well_numbered db Hb tbl E) as [(S & F & _) Fl].
  split; [apply StronglySorted_lt_NoDup, S|]. auto.
Qed.

Lemma built_tables_are_well_formed_witness :
  NoDup (map TuneRow.id (rows (mk_table [row_of 1 tune_101] 1))) /\
  StronglySorted Z.lt (map TuneRow.id (rows (mk_table [row_of 1 tune_101] 1))) /\
  Forall (fun r => (1 <= TuneRow.id r <= 1)%Z) (rows (mk_table [row_of 1 tune_101] 1)) /\
  Forall filled (rows (mk_table [row_of 1 tune_101] 1)).
Proof.
  apply (built_tables_are_well_formed (Some (mk_table [row_of 1 tune_101] 1))).
  - apply (built_insert (TuneDatabase new_file) _ tune_101).
    + apply built_open, built_new.
    + reflexivity.
  - reflexivity.
Defined.

(** ** The ingestion run: what it writes, counts and prints *)

Section RunMore.

Lemma rows_from_app (ts1 ts2 : list TuneDict.t) (start : Z) :
  rows_from start (ts1 ++ ts2) =
  rows_from start ts1 ++ rows_from (start + Z.of_nat (List.length ts1)) ts2.
Proof.
  revert start. induction ts1 as [|t ts1 IH]; intros start.
  - cbn. rewrite Z.add_0_r. reflexivity.
  - cbn [app rows_from List.length]. rewrite IH. do 3 f_equal. lia.
Qed.

Lemma counted_rows_from (ts : list TuneDict.t) (tbl : tunes_table) :
  counted tbl ->
  counted (mk_table (rows tbl ++ rows_from (sqlite_sequence tbl + 1) ts)
                    (sqlite_sequence tbl + Z.of_nat (List.length ts))).
Proof.
  revert tbl. induction ts as [|t ts IH]; intros tbl C.
  - cbn. rewrite app_nil_r, Z.add_0_r. destruct tbl; exact C.
  - pose proof (IH _ (counted_insert tbl t C)) as C'.
    cbn [rows sqlite_sequence] in C'. rewrite <- app_assoc in C'.
    cbn [rows_from List.length].
    replace (sqlite_sequence tbl + Z.of_nat (S (List.length ts)))%Z
      with (sqlite_sequence tbl + 1 + Z.of_nat (List.length ts))%Z by lia.
    exact C'.
Qed.

Lemma tunes_of_file_parse (f : abc_file) (b : Z) :
  book_number f = Some b ->
  parse_abc_file (file_path f) (file f) b =
  (tunes_of_file f, snd (parse_abc_file (file_path f) (file f) b)).
Proof.
  intros E. unfold tunes_of_file. rewrite E.
  destruct (parse_abc_file (file_path f) (file f) b); reflexivity.
Qed.

(** The whole run when every tune can be stored. *)
Lemma process_loop_rows (files : list abc_file) :
  forall (total : nat) (tbl : tunes_table) (printed : list message),
  counted tbl -> Forall storable (all_tunes files) ->
  process_loop files total (Some tbl) printed =
  (Some (mk_table (rows tbl ++ rows_from (sqlite_sequence tbl + 1) (all_tunes files))
                  (sqlite_sequence tbl + Z.of_nat (List.length (all_tunes files)))),
   printed ++ flat_map report files,
   Ok (total + List.length (all_tunes files))).
Proof.
  induction files as [|f files IH]; intros total tbl printed C S.
  - cbn. rewrite !app_nil_r, Z.add_0_r, Nat.add_0_r. destruct tbl; reflexivity.
  - unfold all_tunes in S. cbn [flat_map] in S. apply Forall_app in S as [Sf Sr].
    cbn [process_loop]. unfold all_tunes. cbn [flat_map]. fold (all_tunes files).
    unfold report at 1. destruct (book_number f) as [b|] eqn:E.
    + rewrite (tunes_of_file_parse f b E).
      rewrite (insert_tunes_rows (tunes_of_file f) tbl C Sf).
      rewrite (IH _ _ _ (counted_rows_from (tunes_of_file f) tbl C) Sr).
      cbn [rows sqlite_sequence].
      rewrite rows_from_app, length_app, Nat2Z.inj_add, <- !app_assoc.
      cbn [snd].
      replace (sqlite_sequence tbl + Z.of_nat (List.length (tunes_of_file f)) + 1)%Z
        with (sqlite_sequence tbl + 1 + Z.of_nat (List.length (tunes_of_file f)))%Z by lia.
      rewrite Z.add_assoc, Nat.add_assoc. reflexivity.
    + assert (N : tunes_of_file f = []) by (unfold tunes_of_file; rewrite E; reflexivity).
      rewrite N in *. cbn [app List.length].
      rewrite (IH _ _ _ C Sr), <- app_assoc. reflexivity.
Qed.

Lemma insert_tunes_keeps (ts : list TuneDict.t) (tbl : tunes_table) :
  exists tbl' new,
    fst (insert_tunes ts (Some tbl)) = Some tbl' /\ rows tbl' = rows tbl ++ new.
Proof.
  revert tbl. induction ts as [|t ts IH]; intros tbl.
  - exists tbl, []. rewrite app_nil_r. split; reflexivity.
  - cbn [insert_tunes]. destruct (insert_tune (Some tbl) t) as [db1|e] eqn:E.
    + destruct (insert_tune_inv tbl t db1 E) as [-> _].
      destruct (IH (mk_table (rows tbl ++ [row_of (Z.max (sqlite_sequence tbl)
                     (max_rowid (rows tbl)) + 1) t])
                     (Z.max (sqlite_sequence tbl) (max_rowid (rows tbl)) + 1)))
        as (tbl' & new & E1 & E2).
      exists tbl', (row_of (Z.max (sqlite_sequence tbl) (max_rowid (rows tbl)) + 1) t :: new).
      split; [exact E1|]. rewrite E2. cbn [rows]. rewrite <- app_assoc. reflexivity.
    + exists tbl, []. rewrite app_nil_r. split; reflexivity.
Qed.

Lemma process_loop_keeps (files : list abc_file) :
  forall (total : nat) (tbl : tunes_table) (printed : list message),
  exists tbl' new,
    fst (fst (process_loop files total (Some tbl) printed)) = Some tbl' /\
    rows tbl' = rows tbl ++ new.
Proof.
  induction files as [|f files IH]; intros total tbl printed.
  - exists tbl, []. rewrite app_nil_r. split; reflexivity.
  - cbn [process_loop]. destruct (book_number f) as [b|]; [|apply IH].
    destruct (parse_abc_file (file_path f) (file f) b) as [found said].
    destruct (insert_tunes_keeps found tbl) as (tbl1 & new1 & E1 & R1).
    destruct (insert_tunes found (Some tbl)) as [db1 [[]|e]]; cbn [fst] in E1; subst db1.
    + destruct (IH (total + List.length found)
                   tbl1 (printed ++ said ++ [Processed b (name f) (List.length found)]))
        as (tbl' & new & E2 & R2).
      exists tbl', (new1 ++ new). split; [exact E2|].
      rewrite R2, R1, <- app_assoc. reflexivity.
    + exists tbl1, new1. split; [reflexivity | exact R1].
Qed.

(** A file under a folder that is no number costs the loop one printed
    line and nothing else. *)
Lemma process_loop_skipping (f : abc_file) (rest : list abc_file) (total : nat)
    (db : database) (printed : list message) :
  book_number f = None ->
  process_loop (f :: rest) total db printed =
  process_loop rest total db (printed ++ [Skipping (file_path f) (parent_name f)]).
Proof. intros E. cbn [process_loop]. rewrite E. reflexivity. Qed.

End RunMore.

Lemma storable_of_book_fits (files : list abc_file) :
  Forall book_fits files -> Forall storable (all_tunes files).
Proof.
  induction 1 as [|f files Hf _ IH]; [constructor|].
  unfold all_tunes. cbn [flat_map]. apply Forall_app. split; [|exact IH].
  apply Forall_forall. intros t Ht. unfold tunes_of_file in Ht.
  unfold book_fits in Hf. unfold storable.
  destruct (book_number f) as [b|]; [|destruct Ht].
  destruct (parsed_record_keys _ _ _ _ Ht) as [-> _]. exact Hf.
Qed.

(** X13.  When every tune of the files can be stored, a run on a database
    the program has opened ends without exception; the total it returns is
    the number of tunes of the files and the number of rows added; the rows
    are added after those already in the table, in the order of the files
    and of the tunes in them; each file is reported by its own lines. *)
Theorem run_adds_what_it_counts (db : database) (files : list abc_file) :
  built db -> Forall storable (all_tunes files) ->
  exists tbl,
    TuneDatabase db = Some tbl /\
    process_directory files (TuneDatabase db) =
    (Some (mk_table (rows tbl ++ rows_from (sqlite_sequence tbl + 1) (all_tunes files))
                    (sqlite_sequence tbl + Z.of_nat (List.length (all_tunes files)))),
     flat_map report files,
     Ok (List.length (all_tunes files))) /\
    List.length (rows_from (sqlite_sequence tbl + 1) (all_tunes files)) =
      List.length (all_tunes files).
Proof.
  intros Hb S.
  assert (E : exists tbl, TuneDatabase db = Some tbl)
    by (destruct db; eexists; reflexivity).
  destruct E as [tbl E]. exists tbl. split; [exact E|].
  destruct (built_well_numbered _ (built_open db Hb) tbl E) as [W _].
  rewrite E. unfold process_directory.
  rewrite (process_loop_rows files 0 tbl [] (well_numbered_counted tbl W) S).
  split; [reflexivity | apply rows_from_length].
Qed.

Lemma run_adds_what_it_counts_witness :
  exists tbl,
    TuneDatabase new_file = Some tbl /\
    process_directory [sample_file; broken_file] (TuneDatabase new_file) =
    (Some (mk_table (rows tbl ++ rows_from (sqlite_sequence tbl + 1)
                                   (all_tunes [sample_file; broken_file]))
                    (sqlite_sequence tbl +
                     Z.of_nat (List.length (all_tunes [sample_file; broken_file])))),
     flat_map report [sample_file; broken_file],
     Ok (List.length (all_tunes [sample_file; broken_file]))) /\
    List.length (rows_from (sqlite_sequence tbl + 1) (all_tunes [sample_file; broken_file])) =
      List.length (all_tunes [sample_file; broken_file]).
Proof.
  apply (run_adds_what_it_counts new_file [sample_file; broken_file]).
  - apply built_new.
  - apply storable_of_book_fits. repeat constructor.
Defined.

(** X14.  A file whose parent folder is not a number is skipped with one
    printed line naming the file and the folder: the loop goes on with the
    same total and database, and the database and total at the end of the
    run are those of the run without the file. *)
Theorem invalid_folder_is_skipped (f : abc_file) :
  book_number f = None ->
  (forall rest total db printed,
     process_loop (f :: rest) total db printed =
     process_loop rest total db
       (printed ++ [Skipping (file_path f) (parent_name f)])) /\
  (forall before after db,
     fst (fst (process_directory (before ++ f :: after) db)) =
       fst (fst (process_directory (before ++ after) db)) /\
     snd (process_directory (before ++ f :: after) db) =
       snd (process_directory (before ++ after) db)).
Proof.
  intros E. split.
  - intros rest total db printed. apply (process_loop_skipping f rest total db printed E).
  - intros before after db. unfold process_directory. rewrite !process_loop_app.
    destruct (process_loop before 0 db []) as [[db1 said] [total|e1]];
      [|split; reflexivity].
    rewrite (process_loop_skipping f after total db1 said E).
    rewrite (process_loop_printed after total db1 (said ++ _)).
    rewrite (process_loop_printed after total db1 said).
    destruct (process_loop after total db1 []) as [[d s] r]. split; reflexivity.
Qed.

Lemma invalid_folder_is_skipped_witness :
  process_loop [stray_file; sample_file] 0 (TuneDatabase new_file) [] =
    process_loop [sample_file] 0 (TuneDatabase new_file)
      ([] ++ [Skipping (file_path stray_file) (parent_name stray_file)]) /\
  fst (fst (process_directory ([sample_file] ++ stray_file :: [sample_file])
              (TuneDatabase new_file))) =
    fst (fst (process_directory ([sample_file] ++ [sample_file]) (TuneDatabase new_file))) /\
  snd (process_directory ([sample_file] ++ stray_file :: [sample_file])
         (TuneDatabase new_file)) =
    snd (process_directory ([sample_file] ++ [sample_file]) (TuneDatabase new_file)).
Proof.
  destruct (invalid_folder_is_skipped stray_file eq_refl) as [H1 H2].
  split; [apply H1 | apply H2].
Defined.

Section RunErrors.

Lemma insert_tunes_overflow (t : TuneDict.t) (ts : list TuneDict.t)
    (tbl : tunes_table) (b : Z) :
  TuneDict.book_id t = Some b -> fits_int64 b = false ->
  insert_tunes (t :: ts) (Some tbl) = (Some tbl, Raise OverflowError).
Proof.
  intros E F. cbn [insert_tunes]. unfold insert_tune, bind_int.
  rewrite E, F. reflexivity.
Qed.

Lemma tunes_of_file_book (f : abc_file) (b : Z) (t : TuneDict.t) :
  book_number f = Some b -> In t (tunes_of_file f) -> TuneDict.book_id t = Some b.
Proof.
  intros E H. unfold tunes_of_file in H. rewrite E in H.
  apply (parsed_record_keys _ _ _ _ H).
Qed.

Lemma rows_from_columns (ts : list TuneDict.t) (start : Z) :
  map tune_columns (rows_from start ts) =
  map (fun t => tune_columns (row_of 0 t)) ts.
Proof.
  revert start. induction ts as [|t ts IH]; intros start; [reflexivity|].
  cbn [rows_from map]. rewrite IH. reflexivity.
Qed.

Lemma by_book_rows_from (ts : list TuneDict.t) (start : Z) (b : Z) :
  map tune_columns (get_tunes_by_book (rows_from start ts) b) =
  map (fun t => tune_columns (row_of 0 t))
      (filter (fun t => match TuneDict.book_id t with
                        | Some z => (z =? b)%Z
                        | None => false
                        end) ts).
Proof.
  revert start. induction ts as [|t ts IH]; intros start; [reflexivity|].
  cbn [rows_from]. unfold get_tunes_by_book. cbn [filter row_of TuneRow.book_id].
  fold (get_tunes_by_book (rows_from (start + 1) ts) b).
  destruct (TuneDict.book_id t) as [z|]; [destruct (z =? b)%Z|];
    cbn [map]; rewrite IH; reflexivity.
Qed.

Lemma by_book_rows_from_any {B : Type} (h : TuneRow.t -> B)
    (ts : list TuneDict.t) (start : Z) (b : Z) :
  (forall id t, h (row_of id t) = h (row_of 0 t)) ->
  map h (get_tunes_by_book (rows_from start ts) b) =
  map (fun t => h (row_of 0 t))
      (filter (fun t => match TuneDict.book_id t with
                        | Some z => (z =? b)%Z
                        | None => false
                        end) ts).
Proof.
  intros Hh. revert start. induction ts as [|t ts IH]; intros start; [reflexivity|].
  cbn [rows_from]. unfold get_tunes_by_book. cbn [filter row_of TuneRow.book_id].
  fold (get_tunes_by_book (rows_from (start + 1) ts) b).
  fold (row_of start t).
  destruct (TuneDict.book_id t) as [z|] eqn:E; [destruct (z =? b)%Z|];
    cbn [map]; rewrite IH; try reflexivity.
  f_equal. apply Hh.
Qed.

Lemma filter_tunes_of_file (f : abc_file) (b : Z) :
  filter (fun t => match TuneDict.book_id t with
                   | Some z => (z =? b)%Z
                   | None => false
                   end) (tunes_of_file f) =
  if of_book b f then tunes_of_file f else [].
Proof.
  unfold of_book. destruct (book_number f) as [z|] eqn:E.
  - pose proof (tunes_of_file_book f z) as B. specialize (fun t => B t E).
    induction (tunes_of_file f) as [|t ts IH].
    + destruct (z =? b)%Z; reflexivity.
    + cbn [filter]. rewrite (B t (or_introl eq_refl)).
      rewrite IH by (intros t' H'; apply B; right; exact H').
      destruct (z =? b)%Z; reflexivity.
  - unfold tunes_of_file. rewrite E. reflexivity.
Qed.

Lemma filter_all_tunes (files : list abc_file) (b : Z) :
  filter (fun t => match TuneDict.book_id t with
                   | Some z => (z =? b)%Z
                   | None => false
                   end) (all_tunes files) =
  all_tunes (filter (of_book b) files).
Proof.
  induction files as [|f files IH]; [reflexivity|].
  unfold all_tunes. cbn [flat_map filter]. fold (all_tunes files).
  rewrite filter_app, filter_tunes_of_file, IH.
  destruct (of_book b f); reflexivity.
Qed.

End RunErrors.

(** X15.  A file under a folder whose number does not fit 64 bits stops
    the run at its first tune with OverflowError: nothing of the file is
    written, the files after it are not looked at, and what the files
    before it wrote stays.  When the file has no tune at all it is reported
    as processed and the run goes on. *)
Theorem overflow_stops_the_run (f : abc_file) (b : Z) :
  book_number f = Some b -> fits_int64 b = false ->
  (tunes_of_file f <> [] ->
   forall rest total db printed,
     process_loop (f :: rest) total (TuneDatabase db) printed =
     (TuneDatabase db,
      printed ++ snd (parse_abc_file (file_path f) (file f) b),
      Raise OverflowError)) /\
  (tunes_of_file f = [] ->
   forall rest total db printed,
     process_loop (f :: rest) total db printed =
     process_loop rest total db
       (printed ++ snd (parse_abc_file (file_path f) (file f) b) ++
        [Processed b (name f) 0])).
Proof.
  intros E F. split.
  - intros N rest total db printed.
    assert (T : exists tbl, TuneDatabase db = Some tbl)
      by (destruct db; eexists; reflexivity).
    destruct T as [tbl ->]. cbn [process_loop]. rewrite E.
    rewrite (tunes_of_file_parse f b E).
    destruct (tunes_of_file f) as [|t ts] eqn:Et; [congruence|].
    assert (B : TuneDict.book_id t = Some b).
    { apply (tunes_of_file_book f b t E). rewrite Et. left. reflexivity. }
    rewrite (insert_tunes_overflow t ts tbl b B F). reflexivity.
  - intros N rest total db printed. cbn [process_loop]. rewrite E.
    rewrite (tunes_of_file_parse f b E), N. cbn [insert_tunes List.length].
    rewrite Nat.add_0_r. reflexivity.
Qed.

Lemma overflow_stops_the_run_witness :
  process_loop [huge_book_file; sample_file] 2
    (TuneDatabase (Some (mk_table jig_and_reel 2))) [] =
  (TuneDatabase (Some (mk_table jig_and_reel 2)), [] ++ [], Raise OverflowError) /\
  process_loop [mk_file (lit "abc_books/9223372036854775808/empty.abc")
                  (lit "empty.abc") (lit "9223372036854775808") (Some (2 ^ 63)%Z)
                  (Readable []); sample_file] 0 (TuneDatabase new_file) [] =
  process_loop [sample_file] 0 (TuneDatabase new_file)
    ([] ++ [] ++ [Processed (2 ^ 63) (lit "empty.abc") 0]).
Proof.
  split.
  - apply (proj1 (overflow_stops_the_run huge_book_file (2 ^ 63) eq_refl eq_refl)).
    vm_compute. discriminate.
  - apply (proj2 (overflow_stops_the_run
                    (mk_file (lit "abc_books/9223372036854775808/empty.abc")
                       (lit "empty.abc") (lit "9223372036854775808") (Some (2 ^ 63)%Z)
                       (Readable [])) (2 ^ 63) eq_refl eq_refl)).
    reflexivity.
Defined.

(** X16.  Whatever the files and however the run ends, it removes and
    changes no row: the table after the run starts with the rows it had
    before. *)
Theorem run_never_removes_rows (files : list abc_file) (tbl : tunes_table) :
  exists tbl' new,
    fst (fst (process_directory files (Some tbl))) = Some tbl' /\
    rows tbl' = rows tbl ++ new.
Proof. apply process_loop_keeps. Qed.

Lemma all_tunes_content (files : list abc_file) :
  Forall (fun t => TuneDict.content t <> None) (all_tunes files).
Proof.
  apply Forall_forall. intros t Ht. unfold all_tunes in Ht.
  apply in_flat_map in Ht as (f & _ & Hf). unfold tunes_of_file in Hf.
  destruct (book_number f) as [b|]; [|destruct Hf].
  apply (parsed_record_keys _ _ _ _ Hf).
Qed.

(** X17.  When every tune of the files can be stored (every book number
    fits SQLite's 64-bit integers), then after a run into a new database
    the rows that [get_tunes_by_book] selects from the loaded table are
    the tunes of the files of that book, in the order of the run, with
    their reference number, content, and title, rhythm and key or Unknown,
    and nothing of any other file. *)
Theorem book_filter_gives_the_book (files : list abc_file) (book_id : Z) :
  Forall storable (all_tunes files) ->
  exists df,
    load_data (fst (fst (process_directory files (TuneDatabase new_file)))) = Ok df /\
    map stored_columns (get_tunes_by_book df book_id) =
    map expected_columns (all_tunes (filter (of_book book_id) files)).
Proof.
  intros S. unfold process_directory.
  change (TuneDatabase new_file) with (Some (mk_table [] 0)).
  rewrite (process_loop_rows files 0 (mk_table [] 0) []);
    [|unfold counted; cbn; lia | exact S].
  cbn [fst rows app load_data]. eexists. split; [reflexivity|].
  rewrite (by_book_rows_from_any stored_columns) by (intros id t; reflexivity).
  rewrite filter_all_tunes. apply map_ext_in. intros t Ht.
  apply stored_row_columns.
  pose proof (all_tunes_content (filter (of_book book_id) files)) as C.
  rewrite Forall_forall in C. apply C, Ht.
Qed.

Lemma book_filter_gives_the_book_witness :
  exists df,
    load_data (fst (fst (process_directory
                           [dummy_file 1; sample_file; broken_file; dummy_file 2]
                           (TuneDatabase new_file)))) = Ok df /\
    map stored_columns (get_tunes_by_book df 0) =
    map expected_columns
        (all_tunes (filter (of_book 0)
                      [dummy_file 1; sample_file; broken_file; dummy_file 2])).
Proof.
  apply (book_filter_gives_the_book
           [dummy_file 1; sample_file; broken_file; dummy_file 2] 0).
  apply storable_of_book_fits. repeat constructor.
Defined.

(** The witness at work: of the six rows written, book 0 has the two of
    the sample file. *)
Example book_filter_on_four_files :
  option_map (fun df => (List.length df,
                         map TuneRow.reference_number (get_tunes_by_book df 0)))
    (match load_data (fst (fst (process_directory
                                  [dummy_file 1; sample_file; broken_file; dummy_file 2]
                                  (TuneDatabase new_file)))) with
     | Ok df => Some df
     | Raise _ => None
     end) =
  Some (6, [Some (lit "101"); Some (lit "102")]).
Proof. vm_compute. reflexivity. Qed.

(** X18.  Nothing is deduplicated: when every tune of the files can be
    stored (every book number fits SQLite's 64-bit integers), a second run
    over the same files on the database of the first adds every tune
    again, with new ids, after the rows of the first run. *)
Theorem second_run_duplicates (files : list abc_file) :
  Forall storable (all_tunes files) ->
  exists df1 df2,
    load_data (fst (fst (process_directory files (TuneDatabase new_file)))) = Ok df1 /\
    load_data (fst (fst (process_directory files
       (TuneDatabase (fst (fst (process_directory files (TuneDatabase new_file)))))))) =
      Ok df2 /\
    map tune_columns df2 = map tune_columns df1 ++ map tune_columns df1 /\
    map TuneRow.id df2 = map Z.of_nat (seq 1 (2 * List.length df1)).
Proof.
  intros S. unfold process_directory.
  change (TuneDatabase new_file) with (Some (mk_table [] 0)).
  rewrite (process_loop_rows files 0 (mk_table [] 0) []);
    [|unfold counted; cbn; lia | exact S].
  cbn [fst rows app sqlite_sequence TuneDatabase create_table].
  rewrite (process_loop_rows files 0 _ []); [| |exact S].
  - cbn [fst rows load_data sqlite_sequence]. eexists. eexists.
    split; [reflexivity|]. split; [reflexivity|]. split.
    + rewrite map_app, !rows_from_columns. reflexivity.
    + replace (0 + Z.of_nat (List.length (all_tunes files)) + 1)%Z
        with (0 + 1 + Z.of_nat (List.length (all_tunes files)))%Z by lia.
      rewrite <- rows_from_app. change (0 + 1)%Z with (Z.of_nat 1).
      rewrite rows_from_ids, length_app, rows_from_length.
      do 2 f_equal. lia.
  - pose proof (counted_rows_from (all_tunes files) (mk_table [] 0)) as C.
    cbn [rows sqlite_sequence app] in C. apply C. unfold counted. cbn. lia.
Qed.

Lemma second_run_duplicates_witness :
  exists df1 df2,
    load_data (fst (fst (process_directory [sample_file] (TuneDatabase new_file)))) = Ok df1 /\
    load_data (fst (fst (process_directory [sample_file]
       (TuneDatabase (fst (fst (process_directory [sample_file] (TuneDatabase new_file)))))))) =
      Ok df2 /\
    map tune_columns df2 = map tune_columns df1 ++ map tune_columns df1 /\
    map TuneRow.id df2 = map Z.of_nat (seq 1 (2 * List.length df1)).
Proof.
  apply (second_run_duplicates [sample_file]).
  apply storable_of_book_fits. repeat constructor.
Defined.

(** ** The filters and the plot *)

Section FiltersMore.

Lemma icontains_lower (s sub sub' : str) :
  map Re.lower sub = map Re.lower sub' -> icontains s sub = icontains s sub'.
Proof.
  intros E. induction s as [|x s IH]; cbn [icontains]; rewrite E; [reflexivity|].
  rewrite IH. reflexivity.
Qed.

End FiltersMore.

(** X19.  On a table whose rhythms (for the search by title, whose
    titles) are ASCII, two ASCII search terms without special characters
    that differ only in the case of their letters both return a result,
    and the same one. *)
Theorem term_case_does_not_matter (df : DataFrame) (term term' : str) :
  plain term = true -> plain term' = true ->
  map Re.lower term = map Re.lower term' ->
  (forallb (fun r => ascii_cell (TuneRow.rhythm r)) df = true ->
   exists out,
     get_tunes_by_rhythm df term = Some out /\
     get_tunes_by_rhythm df term' = Some out) /\
  (forallb (fun r => ascii_cell (TuneRow.title r)) df = true ->
   exists out,
     search_tunes df term = Some out /\
     search_tunes df term' = Some out).
Proof.
  intros Hp Hp' E.
  destruct (filters_agree_on_plain_terms df term Hp) as [R T].
  destruct (filters_agree_on_plain_terms df term' Hp') as [R' T'].
  split; intros A; eexists; (split; [auto|]).
  - rewrite (R' A). f_equal. apply filter_ext. intros r.
    unfold rhythm_icontains. destruct (TuneRow.rhythm r); [|reflexivity].
    symmetry. apply icontains_lower, E.
  - rewrite (T' A). f_equal. apply filter_ext. intros r.
    unfold title_icontains. destruct (TuneRow.title r); [|reflexivity].
    symmetry. apply icontains_lower, E.
Qed.

Lemma term_case_does_not_matter_witness :
  (exists out,
     get_tunes_by_rhythm jig_and_reel (lit "JiG") = Some out /\
     get_tunes_by_rhythm jig_and_reel (lit "jig") = Some out) /\
  (exists out,
     search_tunes jig_and_reel (lit "QUICK j") = Some out /\
     search_tunes jig_and_reel (lit "quick J") = Some out).
Proof.
  split.
  - apply (proj1 (term_case_does_not_matter jig_and_reel (lit "JiG") (lit "jig")
                    eq_refl eq_refl eq_refl)). reflexivity.
  - apply (proj2 (term_case_does_not_matter jig_and_reel (lit "QUICK j") (lit "quick J")
                    eq_refl eq_refl eq_refl)). reflexivity.
Defined.

(** Differing in case, [JiG] and [jig] both select the Jig. *)
Example jig_in_any_case :
  option_map (map TuneRow.id) (get_tunes_by_rhythm jig_and_reel (lit "JiG")) = Some [2%Z] /\
  option_map (map TuneRow.id) (search_tunes jig_and_reel (lit "quick J")) = Some [2%Z].
Proof. split; vm_compute; reflexivity. Qed.

(** X21.  On a table whose rhythms are ASCII the empty search term
    selects every row whose rhythm is not NULL; on a table whose titles
    are ASCII and whose rows have no NULL in title, rhythm, key or content
    (as the rows the program writes), the search by title for the empty
    term returns the whole table. *)
Theorem empty_term_selects_all (df : DataFrame) :
  (forallb (fun r => ascii_cell (TuneRow.rhythm r)) df = true ->
   get_tunes_by_rhythm df [] =
   Some (filter (fun r => match TuneRow.rhythm r with Some _ => true | None => false end) df)) /\
  (forallb (fun r => ascii_cell (TuneRow.title r)) df = true ->
   Forall filled df ->
   search_tunes df [] = Some df).
Proof.
  destruct (filters_agree_on_plain_terms df [] eq_refl) as [Hr Ht].
  assert (I : forall s, icontains s [] = true).
  { intros s. destruct s; cbn [icontains map startswith]; reflexivity. }
  split.
  - intros A. rewrite (Hr A). f_equal. apply filter_ext. intros r.
    unfold rhythm_icontains. destruct (TuneRow.rhythm r); [apply I | reflexivity].
  - intros A F. rewrite (Ht A). f_equal. clear Hr Ht A.
    induction F as [|r df (Hn & _) _ IH]; [reflexivity|].
    cbn [filter]. unfold title_icontains at 1.
    destruct (TuneRow.title r); [|congruence]. rewrite I, IH. reflexivity.
Qed.

Lemma empty_term_selects_all_witness :
  get_tunes_by_rhythm jig_and_reel [] =
    Some (filter (fun r => match TuneRow.rhythm r with Some _ => true | None => false end)
            jig_and_reel) /\
  search_tunes jig_and_reel [] = Some jig_and_reel.
Proof.
  destruct (empty_term_selects_all jig_and_reel) as [H1 H2]. split.
  - apply H1. reflexivity.
  - apply H2; [reflexivity|].
    repeat constructor; discriminate.
Defined.

(** X22.  On every table that is not empty [plot_key_distribution] raises
    KeyError for ['key_clean'] before any count is taken or bar drawn: the
    table read from [tunes] has a column [key_sig] and none of that name.
    On an empty table it reports that there is nothing to plot. *)
Theorem plot_asks_for_a_missing_column
    (value_counts : list cell -> list (cell * nat)) (df : DataFrame) :
  (df = [] -> plot_key_distribution value_counts df = Ok NoDataToPlot) /\
  (df <> [] ->
   plot_key_distribution value_counts df = Raise (KeyError (lit "key_clean")) /\
   exn_str (KeyError (lit "key_clean")) = lit "'key_clean'" /\
   getitem df (lit "key_sig") = Ok (map (fun r => TextCell (TuneRow.key_sig r)) df)).
Proof.
  split.
  - intros ->. reflexivity.
  - intros N. destruct df as [|r df]; [congruence|].
    split; [reflexivity | split; reflexivity].
Qed.

Lemma plot_asks_for_a_missing_column_witness :
  plot_key_distribution (fun _ => []) [] = Ok NoDataToPlot /\
  plot_key_distribution (fun _ => []) jig_and_reel = Raise (KeyError (lit "key_clean")) /\
  exn_str (KeyError (lit "key_clean")) = lit "'key_clean'" /\
  getitem jig_and_reel (lit "key_sig") =
    Ok (map (fun r => TextCell (TuneRow.key_sig r)) jig_and_reel).
Proof.
  split.
  - apply (proj1 (plot_asks_for_a_missing_column (fun _ => []) [])). reflexivity.
  - apply (proj2 (plot_asks_for_a_missing_column (fun _ => []) jig_and_reel)).
    discriminate.
Defined.

(** ** The sample data of setup_data.py *)

Section DummyData.

Lemma Permutation_filter_eq {A : Type} (p : A -> bool) (l l' : list A) :
  Permutation l l' -> Permutation (filter p l) (filter p l').
Proof.
  induction 1 as [|x l l' _ IH|x y l|l l' l'' _ IH1 _ IH2]; cbn [filter].
  - constructor.
  - destruct (p x); [constructor; exact IH | exact IH].
  - destruct (p x), (p y); try apply Permutation_refl. apply perm_swap.
  - eapply Permutation_trans; eassumption.
Qed.

Lemma Permutation_Forall_eq {A : Type} (P : A -> Prop) (l l' : list A) :
  Permutation l l' -> Forall P l -> Forall P l'.
Proof.
  intros H F. apply Forall_forall. intros x Hx. rewrite Forall_forall in F.
  apply F. apply (Permutation_in x (Permutation_sym H) Hx).
Qed.

Lemma dummy_book_fits : Forall book_fits create_dummy_data.
Proof. repeat constructor. Qed.

Lemma dummy_total : List.length (all_tunes create_dummy_data) = 6.
Proof. vm_compute. reflexivity. Qed.

Lemma dummy_of_book (i : nat) :
  i < 3 -> filter (of_book (Z.of_nat i)) create_dummy_data = [dummy_file i].
Proof.
  intros H. destruct i as [|[|[|i]]]; [reflexivity | reflexivity | reflexivity | lia].
Qed.

Lemma dummy_file_columns (i : nat) :
  i < 3 ->
  map (fun t => (TuneRow.reference_number (row_of 0 t), TuneRow.title (row_of 0 t),
                 TuneRow.rhythm (row_of 0 t), TuneRow.key_sig (row_of 0 t),
                 TuneRow.content (row_of 0 t)))
      (all_tunes [dummy_file i]) = dummy_columns i.
Proof.
  intros H. destruct i as [|[|[|i]]]; [| | |lia]; vm_compute; reflexivity.
Qed.

End DummyData.

(** X23.  The sample data that [create_dummy_data] writes load as six
    tunes, in whatever order the three files are found: the run raises
    nothing and returns 6, and for each book 0, 1, 2 the book filter gives
    its two tunes, {i}01 The Test Reel {i} (Reel, D) and {i}02 The Quick
    Jig {i} (Jig, G); the meter line stays in the content only, and the
    comment line between the two tunes ends up in the content of the
    first. *)
Theorem dummy_data_load_as_six_tunes (files : list abc_file) :
  Permutation files create_dummy_data ->
  snd (process_directory files (TuneDatabase new_file)) = Ok 6 /\
  exists df,
    load_data (fst (fst (process_directory files (TuneDatabase new_file)))) = Ok df /\
    List.length df = 6 /\
    forall i, i < 3 ->
      map (fun r => (TuneRow.reference_number r, TuneRow.title r, TuneRow.rhythm r,
                     TuneRow.key_sig r, TuneRow.content r))
          (get_tunes_by_book df (Z.of_nat i)) = dummy_columns i.
Proof.
  intros P.
  assert (S : Forall storable (all_tunes files)).
  { apply storable_of_book_fits.
    apply (Permutation_Forall_eq book_fits _ _ (Permutation_sym P) dummy_book_fits). }
  assert (L : List.length (all_tunes files) = 6).
  { rewrite <- dummy_total. apply Permutation_length.
    unfold all_tunes. apply Permutation_flat_map. exact P. }
  unfold process_directory.
  change (TuneDatabase new_file) with (Some (mk_table [] 0)).
  rewrite (process_loop_rows files 0 (mk_table [] 0) []);
    [|unfold counted; cbn; lia | exact S].
  cbn [fst snd rows app load_data]. rewrite L. split; [reflexivity|].
  eexists. split; [reflexivity|]. split; [rewrite rows_from_length; exact L|].
  intros i Hi.
  assert (F : filter (of_book (Z.of_nat i)) files = [dummy_file i]).
  { apply Permutation_length_1_inv. rewrite <- (dummy_of_book i Hi).
    apply Permutation_filter_eq, Permutation_sym, P. }
  rewrite <- (dummy_file_columns i Hi), <- F, <- filter_all_tunes.
  apply by_book_rows_from_any. intros id t. reflexivity.
Qed.

Lemma dummy_data_load_as_six_tunes_witness :
  snd (process_directory [dummy_file 2; dummy_file 0; dummy_file 1]
         (TuneDatabase new_file)) = Ok 6 /\
  exists df,
    load_data (fst (fst (process_directory [dummy_file 2; dummy_file 0; dummy_file 1]
                           (TuneDatabase new_file)))) = Ok df /\
    List.length df = 6 /\
    forall i, i < 3 ->
      map (fun r => (TuneRow.reference_number r, TuneRow.title r, TuneRow.rhythm r,
                     TuneRow.key_sig r, TuneRow.content r))
          (get_tunes_by_book df (Z.of_nat i)) = dummy_columns i.
Proof.
  apply (dummy_data_load_as_six_tunes [dummy_file 2; dummy_file 0; dummy_file 1]).
  apply (Permutation_trans (perm_swap (dummy_file 0) (dummy_file 2) [dummy_file 1])).
  apply perm_skip. apply perm_swap.
Defined.

(** ** The run: order of the files, runs in a row *)

Section RunCompose.

Lemma rows_from_ids_by_length (ts ts' : list TuneDict.t) (start : Z) :
  List.length ts = List.length ts' ->
  map TuneRow.id (rows_from start ts) = map TuneRow.id (rows_from start ts').
Proof.
  revert ts' start. induction ts as [|t ts IH]; intros [|t' ts'] start H;
    try discriminate H; [reflexivity|].
  cbn [rows_from map row_of TuneRow.id]. f_equal. apply IH.
  cbn in H. lia.
Qed.

(** The total so far does not steer the run: it is only added to. *)
Lemma process_loop_total (files : list abc_file) :
  forall (total : nat) (db : database) (printed : list message),
  process_loop files total db printed =
  let '(db', said, r) := process_loop files 0 db [] in
  (db', printed ++ said, add_total total r).
Proof.
  induction files as [|f files IH]; intros total db printed.
  - cbn. rewrite app_nil_r, Nat.add_0_r. reflexivity.
  - cbn [process_loop]. destruct (book_number f) as [b|].
    + destruct (parse_abc_file (file_path f) (file f) b) as [found said].
      destruct (insert_tunes found db) as [db' [[]|e]]; [|reflexivity].
      rewrite (IH (total + _) _ (printed ++ _)), (IH (0 + _) _ ([] ++ _)).
      destruct (process_loop files 0 db' []) as [[d s] r].
      cbn [app]. rewrite <- !app_assoc.
      destruct r as [m|e]; cbn [add_total]; [|reflexivity].
      rewrite Nat.add_assoc. reflexivity.
    + rewrite (IH total _ (printed ++ _)), (IH 0 _ ([] ++ _)).
      destruct (process_loop files 0 db []) as [[d s] r].
      cbn [app]. rewrite <- !app_assoc.
      destruct r as [m|e]; reflexivity.
Qed.

End RunCompose.

(** X24.  For files all of whose tunes can be stored (every book number
    fits SQLite's 64-bit integers), the order in which the files are found
    changes neither the total nor the ids given, and the rows written are
    the same up to their order: the two runs return the same total and
    leave tables with the same ids and, up to a permutation, the same
    tunes. *)
Theorem file_order_does_not_matter (files files' : list abc_file) :
  Permutation files files' -> Forall storable (all_tunes files) ->
  snd (process_directory files (TuneDatabase new_file)) =
    snd (process_directory files' (TuneDatabase new_file)) /\
  exists df df',
    load_data (fst (fst (process_directory files (TuneDatabase new_file)))) = Ok df /\
    load_data (fst (fst (process_directory files' (TuneDatabase new_file)))) = Ok df' /\
    map TuneRow.id df = map TuneRow.id df' /\
    Permutation (map tune_columns df) (map tune_columns df').
Proof.
  intros P S.
  assert (PT : Permutation (all_tunes files) (all_tunes files'))
    by (unfold all_tunes; apply Permutation_flat_map; exact P).
  assert (S' : Forall storable (all_tunes files'))
    by apply (Permutation_Forall_eq storable _ _ PT S).
  pose proof (Permutation_length PT) as L.
  unfold process_directory.
  change (TuneDatabase new_file) with (Some (mk_table [] 0)).
  rewrite (process_loop_rows files 0 (mk_table [] 0) []);
    [|unfold counted; cbn; lia | exact S].
  rewrite (process_loop_rows files' 0 (mk_table [] 0) []);
    [|unfold counted; cbn; lia | exact S'].
  cbn [fst snd rows app load_data]. rewrite L. split; [reflexivity|].
  eexists. eexists. split; [reflexivity|]. split; [reflexivity|]. split.
  - apply rows_from_ids_by_length, L.
  - rewrite !rows_from_columns. apply Permutation_map, PT.
Qed.

Lemma file_order_does_not_matter_witness :
  snd (process_directory [sample_file; dummy_file 1] (TuneDatabase new_file)) =
    snd (process_directory [dummy_file 1; sample_file] (TuneDatabase new_file)) /\
  exists df df',
    load_data (fst (fst (process_directory [sample_file; dummy_file 1]
                           (TuneDatabase new_file)))) = Ok df /\
    load_data (fst (fst (process_directory [dummy_file 1; sample_file]
                           (TuneDatabase new_file)))) = Ok df' /\
    map TuneRow.id df = map TuneRow.id df' /\
    Permutation (map tune_columns df) (map tune_columns df').
Proof.
  apply (file_order_does_not_matter [sample_file; dummy_file 1] [dummy_file 1; sample_file]).
  - apply perm_swap.
  - apply storable_of_book_fits. repeat constructor.
Defined.

(** The two orders at work: the same ids, the tunes of the two files
    swapped. *)
Example two_orders_of_two_files :
  let refs files :=
    match load_data (fst (fst (process_directory files (TuneDatabase new_file)))) with
    | Ok df => map (fun r => (TuneRow.id r, TuneRow.reference_number r)) df
    | Raise _ => []
    end in
  refs [sample_file; dummy_file 1] =
    [(1, Some (lit "101")); (2, Some (lit "102")); (3, Some (lit "101")); (4, Some (lit "102"))]%Z /\
  map fst (refs [dummy_file 1; sample_file]) = [1; 2; 3; 4]%Z /\
  map TuneRow.book_id
    (match load_data (fst (fst (process_directory [dummy_file 1; sample_file]
                                  (TuneDatabase new_file)))) with
     | Ok df => df
     | Raise _ => []
     end) = [Some 1; Some 1; Some 0; Some 0]%Z.
Proof. vm_compute. repeat split. Qed.

(** X25.  Runs compose: a run over two lists of files, one after the
    other, is the run over the first list followed, when that one ends
    without exception, by the run over the second on the database it left,
    the lines printed put end to end and the totals added; when the first
    run raises, the second list is never looked at. *)
Theorem runs_compose (files1 files2 : list abc_file) (db : database) :
  process_directory (files1 ++ files2) db =
  match process_directory files1 db with
  | (db1, said1, Ok total1) =>
      let '(db2, said2, r2) := process_directory files2 db1 in
      (db2, said1 ++ said2, add_total total1 r2)
  | (db1, said1, Raise e) => (db1, said1, Raise e)
  end.
Proof.
  unfold process_directory. rewrite process_loop_app.
  destruct (process_loop files1 0 db []) as [[db1 said1] [total1|e]]; [|reflexivity].
  apply process_loop_total.
Qed.

(** ** The parser: only header lines reach the header fields *)

Section HeaderLines.

Variables (filepath : str) (book_id : Z).

Lemma opens_is_header (raw : str) : opens raw = true -> is_header raw = true.
Proof. unfold opens, is_header. intros ->. reflexivity. Qed.

Lemma blank_not_header (raw : str) : blank raw = true -> is_header raw = false.
Proof.
  unfold blank, is_header. destruct (strip raw); [reflexivity | discriminate].
Qed.

Lemma body_of_filter_header (rest : list str) :
  body_of (filter is_header rest) = filter is_header (body_of rest).
Proof.
  induction rest as [|raw rest IH]; [reflexivity|].
  cbn [filter body_of]. destruct (opens raw) eqn:Ho.
  - rewrite (opens_is_header raw Ho). cbn [body_of]. rewrite Ho. reflexivity.
  - cbn [filter]. destruct (is_header raw); [|exact IH].
    cbn [body_of]. rewrite Ho, IH. reflexivity.
Qed.

Lemma segments_filter_header (lines : list str) :
  segments (filter is_header lines) =
  map (fun seg => (fst seg, filter is_header (snd seg))) (segments lines).
Proof.
  induction lines as [|raw rest IH]; [reflexivity|].
  cbn [filter segments]. destruct (opens raw) eqn:Ho.
  - rewrite (opens_is_header raw Ho). cbn [segments map fst snd].
    rewrite Ho, body_of_filter_header, IH. reflexivity.
  - destruct (is_header raw); [|exact IH].
    cbn [segments]. rewrite Ho. exact IH.
Qed.

(** Among the kept lines, those with a field marker are the same with and
    without the lines that carry no marker. *)
Lemma marked_kept_filter_header (m : str) (body : list str) :
  (forall raw, startswith (strip raw) m = true -> is_header raw = true) ->
  filter (fun l => startswith l m) (kept (filter is_header body)) =
  filter (fun l => startswith l m) (kept body).
Proof.
  intros Hm. induction body as [|raw body IH]; [reflexivity|].
  cbn [filter]. rewrite (kept_cons raw body).
  destruct (is_header raw) eqn:Hh.
  - rewrite kept_cons. destruct (blank raw); [exact IH|].
    cbn [filter]. rewrite IH. reflexivity.
  - destruct (blank raw); [exact IH|]. cbn [filter].
    destruct (startswith (strip raw) m) eqn:E; [|exact IH].
    rewrite (Hm raw E) in Hh. discriminate Hh.
Qed.

Lemma find_filter {A : Type} (p : A -> bool) (l : list A) :
  find p l = hd_error (filter p l).
Proof.
  induction l as [|a l IH]; [reflexivity|].
  cbn [find filter]. destruct (p a); [reflexivity | exact IH].
Qed.

Lemma first_last_by_filter (m : str) (l l' : list str) :
  filter (fun x => startswith x m) l = filter (fun x => startswith x m) l' ->
  first_with m l = first_with m l' /\ last_with m l = last_with m l'.
Proof.
  intros E. unfold first_with, last_with.
  rewrite !find_filter, !filter_rev, E. split; reflexivity.
Qed.

Lemma record_of_filter_header (x : str) (body : list str) :
  header_fields (record_of book_id (x, filter is_header body)) =
  header_fields (record_of book_id (x, body)).
Proof.
  unfold header_fields, record_of. cbn [fst snd].
  rewrite !fold_absorb_X, !fold_absorb_T, !fold_absorb_R, !fold_absorb_K.
  assert (HT : forall raw, startswith (strip raw) T_marker = true -> is_header raw = true).
  { intros raw H. unfold is_header. rewrite H, !orb_true_r. reflexivity. }
  assert (HR : forall raw, startswith (strip raw) R_marker = true -> is_header raw = true).
  { intros raw H. unfold is_header. rewrite H, !orb_true_r. reflexivity. }
  assert (HK : forall raw, startswith (strip raw) K_marker = true -> is_header raw = true).
  { intros raw H. unfold is_header. rewrite H, !orb_true_r. reflexivity. }
  destruct (first_last_by_filter T_marker _ _ (marked_kept_filter_header T_marker body HT)) as [-> _].
  destruct (first_last_by_filter R_marker _ _ (marked_kept_filter_header R_marker body HR)) as [_ ->].
  destruct (first_last_by_filter K_marker _ _ (marked_kept_filter_header K_marker body HK)) as [_ ->].
  reflexivity.
Qed.

End HeaderLines.

(** X26.  The reference number, title, rhythm and key of the records come
    from the lines that carry one of the four markers and from nothing
    else: with every other line taken out (notes, meter, comments, blank
    lines) the parser returns as many records with the same four
    fields. *)
Theorem only_header_lines_set_the_fields (filepath : str) (book_id : Z)
    (lines : list str) :
  map header_fields (fst (parse_lines filepath (filter is_header lines) book_id)) =
  map header_fields (fst (parse_lines filepath lines book_id)).
Proof.
  rewrite !parse_lines_segments. cbn [fst].
  rewrite segments_filter_header, !map_map. apply map_ext. intros [x body].
  cbn [fst snd]. apply record_of_filter_header.
Qed.
